(** * Key-lifecycle event extraction of [at_stop_corona_dump.py]

    A shallow embedding of the script that walks the exported key archives
    of the Austrian stop-corona app, diffs consecutive archives and reports
    ADD / REVOKE / AUTO REMOVE events together with the "people diagnosed"
    lower bound, followed by the properties of that algorithm; and of the
    parts of [download_data.py] that decide what is written to disk.

    The script builds its input from the files of the 14d directory: the
    newest file [last_archive] and the list [archives].  Line 105 names the
    files of that list [at_14d_files], which nothing binds (line 103 binds
    [at_7d_files]), so the script as committed stops there ([script]).  The
    statements behind line 105 are embedded as [dump], a function of
    [archives] and [last_archive].

    Conventions of the embedding:
    - a [datetime] is a number of seconds (archive times come from file
      names with minute resolution, key times are multiples of 600 s), a
      [timedelta] is a difference of two of them; a key's [interval] is the
      int32 field [rolling_start_interval_number] of the export, and
      [utcfromtimestamp] raises for those whose time lies outside the years
      1 to 9999;
    - Python's [set] is a [gset], a [dict] is a [gmap]; the order in which
      CPython iterates over a set is not specified, so it is a parameter of
      the development (class [SetOrder]);
    - a raised exception ends the script: statements that can raise live in
      the error monad [Py]. *)

From Stdlib Require Import ZArith Lia.
From Stdlib Require Import Strings.Byte Strings.Ascii.
From stdpp Require Import base decidable countable list gmap sets strings sorting.

Local Open Scope Z_scope.
#[local] Set Warnings "-clear-no-such-hyp".

(** ** Raised exceptions *)

Inductive PyError : Type :=
  | KeyError    (* dict lookup or set.remove of an absent key *)
  | TypeError   (* set(None) *)
  | ValueError  (* max() of an empty sequence, utcfromtimestamp out of range *)
  | IndexError  (* [-1] of an empty list *)
  | NameError.  (* a name that is not bound *)

Inductive Py (A : Type) : Type :=
  | Ok (a : A)
  | Raise (e : PyError).
Arguments Ok {A} a.
Arguments Raise {A} e.

Definition py_bind {A B} (m : Py A) (f : A → Py B) : Py B :=
  match m with
  | Ok a => f a
  | Raise e => Raise e
  end.

Definition py_map {A B} (f : A → B) (m : Py A) : Py B :=
  match m with
  | Ok a => Ok (f a)
  | Raise e => Raise e
  end.

Notation "'let*' x ':=' m 'in' k" := (py_bind m (λ x, k))
  (at level 10, x name, m at level 100, k at level 200, only parsing).

(** A [for] loop whose body may raise. *)
Fixpoint for_each {A S} (body : S → A → Py S) (s : S) (l : list A) : Py S :=
  match l with
  | [] => Ok s
  | x :: l' => let* s' := body s x in for_each body s' l'
  end.

(** [[f(x) for x in l]], from left to right. *)
Fixpoint list_comp {A B} (f : A → Py B) (l : list A) : Py (list B) :=
  match l with
  | [] => Ok []
  | x :: l' => let* y := f x in let* ys := list_comp f l' in Ok (y :: ys)
  end.

(** ** Keys *)

Abbreviation datetime := Z.
Abbreviation timedelta := Z.

(** [timedelta(days=d)] *)
Definition timedelta_days (d : Z) : timedelta := d * 86400.

(** [class TEK]: a frozen dataclass, compared and hashed by its four fields.
    [load_keys] fills them from the export, where [interval], [level] and
    [period] are int32 fields. *)
Record TEK : Type := mkTEK {
  data : list byte;
  interval : Z;
  level : Z;
  period : Z;
}.

#[global] Instance byte_eq_dec : EqDecision byte := Byte.byte_eq_dec.

#[global] Instance byte_countable : Countable byte :=
  inj_countable Byte.to_N Byte.of_N Byte.of_to_N.

#[global] Instance TEK_eq_dec : EqDecision TEK.
Proof. solve_decision. Defined.

#[global] Instance TEK_countable : Countable TEK :=
  inj_countable'
    (λ k, (data k, interval k, level k, period k))
    (λ t, let '(d, i, l, p) := t in mkTEK d i l p)
    (λ k, match k with mkTEK _ _ _ _ => eq_refl end).

(** [datetime.utcfromtimestamp]: the seconds of 0001-01-01 00:00:00 and of
    9999-12-31 23:59:59, the first and the last [datetime]; a timestamp
    outside raises [ValueError] ("year ... is out of range").  That is the
    error for every timestamp [interval*600] of an int32 [interval]. *)
Definition datetime_min : Z := -62135596800.
Definition datetime_max : Z := 253402300799.

Definition utcfromtimestamp (t : Z) : Py datetime :=
  if decide (datetime_min ≤ t ≤ datetime_max) then Ok t else Raise ValueError.

(** [TEK.dt]: [datetime.utcfromtimestamp(self.interval*600)] *)
Definition TEK_dt (k : TEK) : Py datetime := utcfromtimestamp (interval k * 600).

(** ** Archives

    Reading the zip file and decoding the protobuf export are outside the
    algorithm: an archive is what [Archive.dt] and [Archive.load_keys]
    return for it. *)
Record Archive : Type := mkArchive {
  archive_dt : datetime;
  load_keys : list TEK;
}.

(** ** Events *)

Inductive Event : Type :=
  | RevokedEvent (key : TEK) (dt : datetime) (added_dt : datetime)
  | AddedEvent (key : TEK) (dt : datetime) (changed : bool)
  | AutoRemovedEvent (key : TEK) (dt : datetime) (added_dt : datetime).

#[global] Instance Event_eq_dec : EqDecision Event.
Proof. solve_decision. Defined.

Definition event_key (e : Event) : TEK :=
  match e with
  | RevokedEvent k _ _ | AddedEvent k _ _ | AutoRemovedEvent k _ _ => k
  end.

Definition event_dt (e : Event) : datetime :=
  match e with
  | RevokedEvent _ t _ | AddedEvent _ t _ | AutoRemovedEvent _ t _ => t
  end.

Definition is_added (e : Event) : bool :=
  match e with AddedEvent _ _ _ => true | _ => false end.

(** A REVOKE or AUTO REMOVE event. *)
Definition is_departure (e : Event) : bool := negb (is_added e).

(** [str(type(e))] for a script run as [__main__]. *)
Definition type_str (e : Event) : string :=
  match e with
  | RevokedEvent _ _ _ => "<class '__main__.RevokedEvent'>"
  | AddedEvent _ _ _ => "<class '__main__.AddedEvent'>"
  | AutoRemovedEvent _ _ _ => "<class '__main__.AutoRemovedEvent'>"
  end.

(** ** [list.sort(key=...)]

    Python's sort is stable and compares keys with [<] only.  The result of
    a stable sort is determined by the input, so insertion sort models it:
    an element goes in front of the first one whose key is not smaller. *)
Section list_sort.
Context {A K : Type} (key : A → K) (lt : K → K → bool).

Fixpoint sort_insert (x : A) (l : list A) : list A :=
  match l with
  | [] => [x]
  | y :: l' => if lt (key y) (key x) then y :: sort_insert x l' else x :: y :: l'
  end.

Definition list_sort (l : list A) : list A := foldr sort_insert [] l.
End list_sort.

(** The events' sort key [(e.dt, str(type(e)), e.key.level, e.key.dt)];
    tuples compare by the first component that differs. *)
Definition event_sort_key (e : Event) : Py (datetime * string * Z * datetime) :=
  let* key_dt := TEK_dt (event_key e) in
  Ok (event_dt e, type_str e, level (event_key e), key_dt).

Definition sort_key_ltb (a b : datetime * string * Z * datetime) : bool :=
  let '(t1, s1, l1, d1) := a in
  let '(t2, s2, l2, d2) := b in
  if negb (t1 =? t2) then t1 <? t2
  else if negb (String.eqb s1 s2) then String.ltb s1 s2
  else if negb (l1 =? l2) then l1 <? l2
  else d1 <? d2.

(** [events.sort(key=...)]: the key of every element is computed first (a
    key that raises ends the sort), then the elements are ordered by their
    keys. *)
Definition sort_events (evs : list Event) : Py (list Event) :=
  let* keyed := list_comp (λ e, let* k := event_sort_key e in Ok (k, e)) evs in
  Ok (snd <$> list_sort fst sort_key_ltb keyed).

(** ** Iteration order of sets *)

Class SetOrder : Type := {
  set_iter : gset TEK → list TEK;
  set_iter_perm : ∀ s, set_iter s ≡ₚ elements s;
}.

(** One admissible order. *)
Definition elements_order : SetOrder :=
  {| set_iter := elements; set_iter_perm := λ s, reflexivity (elements s) |}.

(** ** State of the script *)

Record State : Type := mkState {
  all_keys : gset TEK;
  revoked_keys : gset TEK;
  (* [prev_keys] and [prev_dt]: always assigned together *)
  prev : option (list TEK * datetime);
  events : list Event;
  added_when : gmap TEK datetime;
  dts : list datetime;
}.

Definition prev_keys (st : State) : option (list TEK) := fst <$> prev st.
Definition prev_dt (st : State) : option datetime := snd <$> prev st.

Definition init : State :=
  {| all_keys := ∅; revoked_keys := ∅; prev := None; events := [];
     added_when := ∅; dts := [] |}.

Section extractor.
Context {O : SetOrder}.

(** [inter = list(set(now_keys) & set(prev_keys))] followed by
    [inter.sort(key=lambda key: 1000 * key.level + key.interval)] *)
Definition intersection (now_keys prev_keys : list TEK) : list TEK :=
  list_sort (λ k, 1000 * level k + interval k) Z.ltb
    (set_iter (list_to_set now_keys ∩ list_to_set prev_keys)).

(** Body of the ADD loop. *)
Definition add_key (prev_dt : datetime) (st : State) (key : TEK) : State :=
  if decide (key ∈ all_keys st) then st
  else
    let changed :=
      existsb (λ o, bool_decide (data key = data o)) (set_iter (all_keys st)) in
    {| all_keys := {[key]} ∪ all_keys st;
       revoked_keys := revoked_keys st;
       prev := prev st;
       events := events st ++ [AddedEvent key prev_dt changed];
       added_when := <[key := prev_dt]> (added_when st);
       dts := dts st |}.

Definition add_loop (prev_dt : datetime) (inter : list TEK) (st : State) : State :=
  foldl (add_key prev_dt) st inter.

(** [added_when[key]] *)
Definition added_when_get (st : State) (key : TEK) : Py datetime :=
  match added_when st !! key with
  | Some t => Ok t
  | None => Raise KeyError
  end.

(** [all_keys.remove(key)] *)
Definition all_keys_remove (key : TEK) (st : State) : Py State :=
  if decide (key ∈ all_keys st) then
    Ok {| all_keys := all_keys st ∖ {[key]};
          revoked_keys := revoked_keys st;
          prev := prev st;
          events := events st;
          added_when := added_when st;
          dts := dts st |}
  else Raise KeyError.

Definition emit (e : Event) (st : State) : State :=
  {| all_keys := all_keys st;
     revoked_keys := revoked_keys st;
     prev := prev st;
     events := events st ++ [e];
     added_when := added_when st;
     dts := dts st |}.

Definition revoke (key : TEK) (st : State) : State :=
  {| all_keys := all_keys st;
     revoked_keys := {[key]} ∪ revoked_keys st;
     prev := prev st;
     events := events st;
     added_when := added_when st;
     dts := dts st |}.

(** Body of the REVOKE/AUTO_REMOVE loop. *)
Definition depart_key (dt : datetime) (inter : list TEK) (st : State) (key : TEK)
    : Py State :=
  if decide (key ∈ inter) then Ok st
  else
    let* key_dt := TEK_dt key in
    let age := dt - key_dt in
    if decide (age ≤ timedelta_days 8) then
      let* added_dt := added_when_get st key in
      all_keys_remove key (revoke key (emit (RevokedEvent key dt added_dt) st))
    else
      let* added_dt := added_when_get st key in
      all_keys_remove key (emit (AutoRemovedEvent key dt added_dt) st).

(** [for key in list(all_keys): ...]: the loop runs over a copy taken
    before the first removal. *)
Definition depart_loop (dt : datetime) (inter : list TEK) (st : State) : Py State :=
  for_each (depart_key dt inter) st (set_iter (all_keys st)).

Definition set_prev (now_keys : list TEK) (dt : datetime) (st : State) : State :=
  {| all_keys := all_keys st;
     revoked_keys := revoked_keys st;
     prev := Some (now_keys, dt);
     events := events st;
     added_when := added_when st;
     dts := dts st |}.

Definition dts_append (dt : datetime) (st : State) : State :=
  {| all_keys := all_keys st;
     revoked_keys := revoked_keys st;
     prev := prev st;
     events := events st;
     added_when := added_when st;
     dts := dts st ++ [dt] |}.

(** Body of [for archive in archives]. *)
Definition process_archive (st : State) (archive : Archive) : Py State :=
  let dt := archive_dt archive in
  let now_keys := load_keys archive in
  let st := dts_append dt st in
  match prev st with
  | None => Ok (set_prev now_keys dt st)
  | Some (prev_keys, prev_dt) =>
      let inter := intersection now_keys prev_keys in
      let st := add_loop prev_dt inter st in
      let* st := depart_loop dt inter st in
      Ok (set_prev now_keys dt st)
  end.

Definition walk (archives : list Archive) : Py State :=
  for_each process_archive init archives.

(** The pass after the loop, against the 14d archive; [set(prev_keys)]
    raises when no archive was processed. *)
Definition last_pass (last_archive : Archive) (st : State) : Py State :=
  let now_keys := load_keys last_archive in
  match prev st with
  | None => Raise TypeError
  | Some (prev_keys, prev_dt) =>
      Ok (add_loop prev_dt (intersection now_keys prev_keys) st)
  end.

Definition extract (archives : list Archive) (last_archive : Archive) : Py State :=
  let* st := walk archives in last_pass last_archive st.
End extractor.

(** ** Report

    Only what the report computes is kept: the text of the printed lines
    ([TEK.format], [TEK.sha], the delay of a REVOKE) is not. *)

(** [d[k] += 1] on a [collections.defaultdict(int)] *)
Definition incr (k : Z) (d : gmap Z Z) : gmap Z Z :=
  <[k := default 0 (d !! k) + 1]> d.

(** [max(d.values())] *)
Definition max_values (d : gmap Z Z) : Py Z :=
  match (map_to_list d).*2 with
  | [] => Raise ValueError
  | x :: l => Ok (foldl Z.max x l)
  end.

Record Counts : Type := mkCounts {
  days_count : gmap Z Z;
  tot_days_count : gmap Z Z;
}.

(** Body of [for event in gevents], reduced to the two counters. *)
Definition count_event (revoked_keys : gset TEK) (c : Counts) (event : Event) : Counts :=
  match event with
  | AddedEvent key _ _ =>
      let revoked := bool_decide (key ∈ revoked_keys) in
      if bool_decide (level key = 5) && negb revoked then
        {| days_count := incr (interval key) (days_count c);
           tot_days_count := incr (interval key) (tot_days_count c) |}
      else c
  | RevokedEvent _ _ _ | AutoRemovedEvent _ _ _ => c
  end.

(** What the report holds after the loop over [dts]: for each archive time
    the number of its "At least ... people diagnosed." line, if that line is
    printed, and the totals per start interval. *)
Record Lines : Type := mkLines {
  diagnosed_at : list (datetime * option Z);
  totals : gmap Z Z;
}.

(** Body of [for dt in dts]. *)
Definition report_dt (revoked_keys : gset TEK) (events : list Event)
    (r : Lines) (dt : datetime) : Py Lines :=
  let gevents := filter (λ e, event_dt e = dt) events in
  let c := foldl (count_event revoked_keys)
             {| days_count := ∅; tot_days_count := totals r |} gevents in
  let* line :=
    if decide (days_count c = ∅) then Ok None
    else (let* n := max_values (days_count c) in Ok (Some n)) in
  Ok {| diagnosed_at := diagnosed_at r ++ [(dt, line)];
        totals := tot_days_count c |}.

Record Report : Type := mkReport {
  sorted_events : list Event;
  lines : Lines;
  (* the number of the last line, "At least ... people diagnosed." *)
  diagnosed : Z;
}.

Definition report (st : State) : Py Report :=
  let* evs := sort_events (events st) in
  let* r := for_each (report_dt (revoked_keys st) evs)
              {| diagnosed_at := []; totals := ∅ |} (dts st) in
  let* n := max_values (totals r) in
  Ok {| sorted_events := evs; lines := r; diagnosed := n |}.

(** Lines 107 to 213, for the values of [archives] and [last_archive]. *)
Definition dump {O : SetOrder} (archives : list Archive) (last_archive : Archive)
    : Py Report :=
  let* st := extract archives last_archive in report st.


(** * Notions used in the statements *)

(** ** Start times *)

(** The start of a key in seconds since the epoch. *)
Definition start_time (k : TEK) : Z := interval k * 600.

(** The start of [k] is a [datetime]: [k.dt] does not raise. *)
Definition representable (k : TEK) : Prop :=
  datetime_min ≤ start_time k ≤ datetime_max.

#[global] Instance representable_dec k : Decision (representable k).
Proof. unfold representable. apply _. Defined.

(** Every key of every archive has a start that is a [datetime]. *)
Definition archives_ok (archives : list Archive) : Prop :=
  Forall (λ a, Forall representable (load_keys a)) archives.

(** What a run over [archives] gives: a result with [P], or the
    [ValueError] of a key whose start is not a [datetime]. *)
Definition gives {A} (archives : list Archive) (m : Py A) (P : A → Prop) : Prop :=
  match m with
  | Ok a => P a
  | Raise e => e = ValueError ∧ ¬ archives_ok archives
  end.

(** ** Order of the events *)

(** The sort key of an event whose key has a start time. *)
Definition sort_key_of (e : Event) : datetime * string * Z * datetime :=
  (event_dt e, type_str e, level (event_key e), start_time (event_key e)).

(** The order of the class names is the order of these ranks. *)
Definition type_rank (e : Event) : Z :=
  match e with
  | AddedEvent _ _ _ => 0
  | AutoRemovedEvent _ _ _ => 1
  | RevokedEvent _ _ _ => 2
  end.

Definition event_ltb (e1 e2 : Event) : bool :=
  sort_key_ltb (sort_key_of e1) (sort_key_of e2).

(** [a] may stand before [b] in a list sorted by [key]: the key of [b] is
    not smaller. *)
Definition not_after {A K : Type} (key : A → K) (lt : K → K → bool) (a b : A) : Prop :=
  lt (key b) (key a) = false.

(** ** Departures *)

(** The event the REVOKE/AUTO_REMOVE loop appends for a departing [key]
    whose add time is recorded in [aw]. *)
Definition departure_event (dt : datetime) (aw : gmap TEK datetime) (key : TEK) : Event :=
  if decide (dt - start_time key ≤ timedelta_days 8)
  then RevokedEvent key dt (default 0 (aw !! key))
  else AutoRemovedEvent key dt (default 0 (aw !! key)).

(** The keys that leave at a transition whose true keys are [inter]. *)
Definition departing {O : SetOrder} (st : State) (inter : list TEK) : list TEK :=
  filter (λ k, k ∉ inter) (set_iter (all_keys st ∪ list_to_set inter)).

(** ** Event lists *)

(** [replay live evs] follows the events from the set [live] of keys that
    are present: an ADD of a key that is present is refused, a departure
    takes the key out. *)
Fixpoint replay (live : gset TEK) (evs : list Event) : option (gset TEK) :=
  match evs with
  | [] => Some live
  | AddedEvent k _ _ :: evs' =>
      if decide (k ∈ live) then None else replay ({[k]} ∪ live) evs'
  | e :: evs' => replay (live ∖ {[event_key e]}) evs'
  end.

(** A departure of [k]. *)
Definition departure_of (k : TEK) (e : Event) : Prop :=
  is_departure e = true ∧ event_key e = k.

(** Between two ADD events of a key lies a departure of that key. *)
Definition one_live_interval (evs : list Event) : Prop :=
  ∀ l1 l2 l3 k t1 c1 t2 c2,
    evs = l1 ++ AddedEvent k t1 c1 :: l2 ++ AddedEvent k t2 c2 :: l3 →
    Exists (departure_of k) l2.

(** What the walk keeps true of its state. *)

Record Inv (st : State) : Prop := mkInv {
  (* every key of [all_keys] has its add time recorded *)
  inv_added_when : all_keys st ⊆ dom (added_when st);
  (* the events replay without a double ADD, and end in [all_keys] *)
  inv_replay : replay ∅ (events st) = Some (all_keys st);
  (* [revoked_keys] holds the keys of the REVOKE events *)
  inv_revoked : ∀ k, k ∈ revoked_keys st ↔ ∃ t a, RevokedEvent k t a ∈ events st;
  (* every event is dated with the time of a processed archive *)
  inv_event_dt : ∀ e, e ∈ events st → event_dt e ∈ dts st;
  inv_prev_dt : ∀ pk pdt, prev st = Some (pk, pdt) → pdt ∈ dts st;
}.

(** ** Counting *)

(** The count of start interval [i] in a counter dictionary. *)
Definition bucket (d : gmap Z Z) (i : Z) : Z := default 0 (d !! i).

(** An event the report counts: an ADD of a level 5 key that is not in
    [revoked]. *)
Definition counted (revoked : gset TEK) (e : Event) : Prop :=
  is_added e = true ∧ level (event_key e) = 5 ∧ event_key e ∉ revoked.

#[global] Instance counted_dec revoked e : Decision (counted revoked e).
Proof. unfold counted. apply _. Defined.

(** The events of [evs] counted for start interval [i]. *)
Definition counted_in (revoked : gset TEK) (i : Z) (evs : list Event) : list Event :=
  filter (λ e, counted revoked e ∧ interval (event_key e) = i) evs.

(** The events in the order in which the report visits them. *)
Definition grouped (dts : list datetime) (evs : list Event) : list Event :=
  concat ((λ dt, filter (λ e, event_dt e = dt) evs) <$> dts).

(** ** Traces *)

(** [added_dt] of a REVOKE or AUTO REMOVE event. *)
Definition event_added_dt (e : Event) : option datetime :=
  match e with
  | RevokedEvent _ _ a | AutoRemovedEvent _ _ a => Some a
  | AddedEvent _ _ _ => None
  end.

(** The age test of the departure loop, read off an event. *)
Definition age_classified (e : Event) : Prop :=
  match e with
  | RevokedEvent k t _ => representable k ∧ t - start_time k ≤ timedelta_days 8
  | AutoRemovedEvent k t _ => representable k ∧ timedelta_days 8 < t - start_time k
  | AddedEvent _ _ _ => True
  end.

(** The sort key of [inter]. *)
Definition inter_sort_key (k : TEK) : Z := 1000 * level k + interval k.

(** What the walk keeps true of its events and of [added_when]. *)
Record Trace (st : State) : Prop := mkTrace {
  (* a recorded add time is an archive time, and the time of an ADD event *)
  trace_added_when : ∀ k a,
    added_when st !! k = Some a → a ∈ dts st ∧ ∃ c, AddedEvent k a c ∈ events st;
  (* a departure follows an ADD event of its key, dated with its [added_dt] *)
  trace_departure : ∀ l1 e l2 a,
    events st = l1 ++ e :: l2 → event_added_dt e = Some a →
    ∃ c, AddedEvent (event_key e) a c ∈ l1;
  (* with increasing archive times a departure is later than its ADD *)
  trace_delay : StronglySorted Z.lt (dts st) →
    ∀ e a, e ∈ events st → event_added_dt e = Some a → a < event_dt e;
  trace_age : ∀ e, e ∈ events st → age_classified e;
  (* no departure is dated with the first archive *)
  trace_departure_dt : ∀ e,
    e ∈ events st → is_departure e = true → event_dt e ∈ tail (dts st);
}.

(** * The rest of the two scripts

    The per-archive lines of the report, [TEK.format], and from
    [download_data.py] the download jobs with the files they read and
    write, and the timestamp of a url path. *)

(** ** Lines of the report *)

(** The number of counted events of start interval [i] dated [dt]: the
    value of [days_count[i]] after the events of [dt]. *)
Definition day_count (revoked : gset TEK) (evs : list Event) (dt : datetime) (i : Z) : Z :=
  Z.of_nat (length (counted_in revoked i (filter (λ e, event_dt e = dt) evs))).

(** What the "At least ... people diagnosed." line of an archive time says:
    no line without a counted event of that time, otherwise the largest
    [days_count] value. *)
Definition line_of (revoked : gset TEK) (evs : list Event)
    (dt : datetime) (entry : datetime * option Z) : Prop :=
  entry.1 = dt ∧
  match entry.2 with
  | None => ∀ e, e ∈ evs → event_dt e = dt → ¬ counted revoked e
  | Some n =>
      1 ≤ n ∧ (∃ i, day_count revoked evs dt i = n) ∧
      ∀ i, day_count revoked evs dt i ≤ n
  end.

(** ** [TEK.format] *)

(** [timedelta.days]: the whole days of a difference, rounded down. *)
Definition timedelta_get_days (td : timedelta) : Z := td / 86400.

(** [datetime.hour] and [datetime.minute] *)
Definition datetime_hour (t : datetime) : Z := (t mod 86400) / 3600.
Definition datetime_minute (t : datetime) : Z := (t mod 3600) / 60.

(** [TEK.format], the two parts of the text that are computed from times:
    [age = (added_dt-self.dt).days] and the test
    [self.dt.hour != 0 or self.dt.minute != 0] that adds the time of day to
    the date.  (The report passes the time of the event as [added_dt].) *)
Definition format_age (self : TEK) (added_dt : datetime) : Py Z :=
  let* self_dt := TEK_dt self in
  Ok (timedelta_get_days (added_dt - self_dt)).

Definition format_with_time (self : TEK) : Py bool :=
  let* self_dt := TEK_dt self in
  if bool_decide (datetime_hour self_dt ≠ 0) then Ok true
  else
    let* self_dt := TEK_dt self in
    Ok (bool_decide (datetime_minute self_dt ≠ 0)).

(** The age the report prints on the line of a departure. *)
Definition age_shown (e : Event) : Prop :=
  match e with
  | RevokedEvent k t _ => ∃ age, format_age k t = Ok age ∧ age ≤ 8
  | AutoRemovedEvent k t _ => ∃ age, format_age k t = Ok age ∧ 8 ≤ age
  | AddedEvent _ _ _ => True
  end.

(** ** The download jobs

    A path is the list of its components below [root], the directory of
    the script, the last component first: [root / "a" / "b.zip"] is
    ["b.zip"; "a"].  The files on disk are a map from paths to nodes, a
    regular file with its content or a directory; [root] itself is a
    directory.  Access rights, links and the space left on the disk are not
    part of it.  What [sess.get(url)] followed by [resp.raise_for_status()]
    gives is an input of a job: the content, or an exception. *)

Inductive DownloadError : Type :=
  | HTTPError             (* raise_for_status, or a failed request *)
  | AttributeError        (* .group(1) of a search without match *)
  | FileExistsError       (* mkdir of a path that exists *)
  | FileNotFoundError     (* a missing directory on the way to a path *)
  | NotADirectoryError    (* a regular file on the way to a path *)
  | IsADirectoryError.    (* open of a directory *)

Inductive Outcome (A : Type) : Type :=
  | Returned (a : A)
  | Raises (e : DownloadError).
Arguments Returned {A} a.
Arguments Raises {A} e.

Abbreviation Path := (list string).

(** [Path.parent]; the parent of [root] is [root]. *)
Definition parent (p : Path) : Path := tail p.

Inductive Node : Type :=
  | File (content : list byte)
  | Dir.

Abbreviation Files := (gmap Path Node).

(** What the system finds at a path: a file, a directory, nothing (ENOENT),
    or a regular file on the way (ENOTDIR). *)
Inductive Stat : Type :=
  | IsFile (content : list byte)
  | IsDir
  | Missing
  | NotADir.

Fixpoint stat (fs : Files) (p : Path) : Stat :=
  match p with
  | [] => IsDir
  | _ :: q =>
      match stat fs q with
      | IsDir =>
          match fs !! p with
          | Some (File content) => IsFile content
          | Some Dir => IsDir
          | None => Missing
          end
      | IsFile _ | NotADir => NotADir
      | Missing => Missing
      end
  end.

(** [Path.is_file] and [Path.is_dir]: false for a path that is not there. *)
Definition is_file (fs : Files) (p : Path) : bool :=
  match stat fs p with IsFile _ => true | _ => false end.

Definition is_dir (fs : Files) (p : Path) : bool :=
  match stat fs p with IsDir => true | _ => false end.

(** [Path.read_bytes] *)
Definition read_bytes (fs : Files) (p : Path) : Outcome (list byte) :=
  match stat fs p with
  | IsFile content => Returned content
  | IsDir => Raises IsADirectoryError
  | Missing => Raises FileNotFoundError
  | NotADir => Raises NotADirectoryError
  end.

(** [os.mkdir] *)
Definition os_mkdir (fs : Files) (p : Path) : Outcome Files :=
  match p with
  | [] => Raises FileExistsError
  | _ :: q =>
      match stat fs q with
      | IsDir =>
          match fs !! p with
          | Some _ => Raises FileExistsError
          | None => Returned (<[p := Dir]> fs)
          end
      | Missing => Raises FileNotFoundError
      | IsFile _ | NotADir => Raises NotADirectoryError
      end
  end.

(** [Path.mkdir(parents=True, exist_ok=True)]: [os.mkdir]; after
    [FileNotFoundError] the parent is made first and [os.mkdir] is tried
    again; another error is dropped when the path is a directory.  The files
    are returned with the outcome: a failure keeps what was made before. *)
Fixpoint mkdir_parents (fs : Files) (p : Path) : Files * Outcome unit :=
  match os_mkdir fs p with
  | Returned fs' => (fs', Returned ())
  | Raises FileNotFoundError =>
      match p with
      | [] => (fs, Raises FileNotFoundError)
      | _ :: q =>
          match mkdir_parents fs q with
          | (fs1, Returned _) =>
              match os_mkdir fs1 p with
              | Returned fs2 => (fs2, Returned ())
              | Raises FileNotFoundError => (fs1, Raises FileNotFoundError)
              | Raises e => if is_dir fs1 p then (fs1, Returned ()) else (fs1, Raises e)
              end
          | (fs1, Raises e) => (fs1, Raises e)
          end
      end
  | Raises e => if is_dir fs p then (fs, Returned ()) else (fs, Raises e)
  end.

(** [Path.write_bytes]: the file is opened for writing, which creates or
    empties it, and the content is written. *)
Definition write_bytes (fs : Files) (p : Path) (content : list byte) : Outcome Files :=
  match p with
  | [] => Raises IsADirectoryError
  | _ :: q =>
      match stat fs q with
      | IsDir =>
          match fs !! p with
          | Some Dir => Raises IsADirectoryError
          | _ => Returned (<[p := File content]> fs)
          end
      | Missing => Raises FileNotFoundError
      | IsFile _ | NotADir => Raises NotADirectoryError
      end
  end.

Inductive Message : Type :=
  | Warn (path : Path)     (* WARN: Not same {path}! *)
  | Saved (path : Path)    (* Saved {path} *)
  | Printed (e : DownloadError).

(** [func] of [save_to_path(url, path, check_path)], run on the files [fs]
    with the response [resp]: the files it leaves, and what it prints or
    the exception it raises. *)
Definition func (path : Path) (check_path : option Path)
    (resp : Outcome (list byte)) (fs : Files) : Files * Outcome (list Message) :=
  match resp with
  | Raises e => (fs, Raises e)
  | Returned content =>
      let same_as_check : Outcome bool :=
        match check_path with
        | Some cp =>
            if is_file fs cp then
              match read_bytes fs cp with
              | Returned old => Returned (bool_decide (content = old))
              | Raises e => Raises e
              end
            else Returned false
        | None => Returned false
        end in
      match same_as_check with
      | Raises e => (fs, Raises e)
      | Returned true => (fs, Returned [])
      | Returned false =>
          if is_file fs path then
            match read_bytes fs path with
            | Returned old =>
                (fs, Returned (if bool_decide (content ≠ old) then [Warn path] else []))
            | Raises e => (fs, Raises e)
            end
          else
            match mkdir_parents fs (parent path) with
            | (fs1, Raises e) => (fs1, Raises e)
            | (fs1, Returned _) =>
                match write_bytes fs1 path content with
                | Returned fs2 => (fs2, Returned [Saved path])
                | Raises e => (fs1, Raises e)
                end
            end
      end
  end.

(** A queued job with the response it will get. *)
Record Job : Type := mkJob {
  job_path : Path;
  job_check_path : option Path;
  job_response : Outcome (list byte);
}.

(** [try: item(sess) except Exception as exc: print(exc)] *)
Definition run_item (fs : Files) (item : Job) : Files * list Message :=
  match func (job_path item) (job_check_path item) (job_response item) fs with
  | (fs', Returned out) => (fs', out)
  | (fs', Raises e) => (fs', [Printed e])
  end.

(** [worker], for the items one worker takes from the queue: it stops at
    the first [None] (and waits when the queue gives nothing more). *)
Fixpoint worker (fs : Files) (items : list (option Job)) : Files * list Message :=
  match items with
  | [] => (fs, [])
  | None :: _ => (fs, [])
  | Some item :: items' =>
      let r := run_item fs item in
      let r' := worker r.1 items' in
      (r'.1, r.2 ++ r'.2)
  end.

(** Every entry of [fs] can be reached: it lies in a directory. *)
Definition reachable (fs : Files) : Prop :=
  ∀ p, is_Some (fs !! p) → p ≠ [] ∧ stat fs (parent p) = IsDir.

(** ** The timestamp of a url path

    [int(re.search(r'/(15\d{8})/', url_path).group(1))] of [at_save], for a
    url path of ASCII characters. *)

Definition is_digit (c : Ascii.ascii) : bool :=
  (48 <=? Ascii.N_of_ascii c)%N && (Ascii.N_of_ascii c <=? 57)%N.

(** [\d{n}] at the start of [s]: the digits and the rest. *)
Fixpoint take_digits (n : nat) (s : string) : option (string * string) :=
  match n with
  | O => Some (EmptyString, s)
  | S n' =>
      match s with
      | String c s' =>
          if is_digit c then
            match take_digits n' s' with
            | Some (ds, rest) => Some (String c ds, rest)
            | None => None
            end
          else None
      | EmptyString => None
      end
  end.

(** A match of the pattern at the start of [s]: its group. *)
Definition match_timestamp (s : string) : option string :=
  match s with
  | String c1 (String c2 (String c3 s')) =>
      if bool_decide (c1 = "/"%char) && bool_decide (c2 = "1"%char) &&
         bool_decide (c3 = "5"%char)
      then
        match take_digits 8 s' with
        | Some (ds, String c4 _) =>
            if bool_decide (c4 = "/"%char)
            then Some (String "1"%char (String "5"%char ds))
            else None
        | _ => None
        end
      else None
  | _ => None
  end.

(** [re.search]: the leftmost match. *)
Fixpoint search_timestamp (s : string) : option string :=
  match match_timestamp s with
  | Some g => Some g
  | None =>
      match s with
      | String _ s' => search_timestamp s'
      | EmptyString => None
      end
  end.

(** [int] of a string of digits. *)
Fixpoint int_of_digits (acc : Z) (s : string) : Z :=
  match s with
  | EmptyString => acc
  | String c s' => int_of_digits (acc * 10 + (Z.of_N (Ascii.N_of_ascii c) - 48)) s'
  end.

Definition url_timestamp (url_path : string) : Outcome Z :=
  match search_timestamp url_path with
  | Some g => Returned (int_of_digits 0 g)
  | None => Raises AttributeError
  end.

(** [s] has no slash that is followed by the digit 1. *)
Fixpoint slash_one_free (s : string) : bool :=
  match s with
  | String c1 s' =>
      match s' with
      | String c2 _ =>
          negb (bool_decide (c1 = "/"%char) && bool_decide (c2 = "1"%char)) &&
          slash_one_free s'
      | EmptyString => true
      end
  | EmptyString => true
  end.

(** The decimal notation of [t] with [n] digits. *)
Fixpoint decimal (n : nat) (t : Z) : string :=
  match n with
  | O => EmptyString
  | S n' =>
      String (Ascii.ascii_of_N (Z.to_N (48 + (t / 10 ^ Z.of_nat n') mod 10)))
        (decimal n' (t mod 10 ^ Z.of_nat n'))
  end.

(** * Example inputs

    Archive times are seconds since the epoch; 2650000 is the start
    interval of 1590000000. *)

Definition k_old : TEK := mkTEK [x0a%byte] 2650000 5 144.
Definition k_new : TEK := mkTEK [x0b%byte] 2650143 5 144.

Definition live_two : State :=
  {| all_keys := {[k_old; k_new]};
     revoked_keys := ∅;
     prev := None;
     events := [];
     added_when := {[k_old := 1590000000; k_new := 1590085800]};
     dts := [] |}.

Definition real_a : TEK := mkTEK [x01%byte] 2650000 5 144.
Definition real_b : TEK := mkTEK [x02%byte] 2650000 2 144.
Definition real_c : TEK := mkTEK [x03%byte] 2650144 2 144.
Definition pad_1 : TEK := mkTEK [xf1%byte] 2650000 2 144.
Definition pad_2 : TEK := mkTEK [xf2%byte] 2650144 5 144.

Definition key_1 : TEK := mkTEK [x01%byte] 2650000 2 144.
Definition key_1' : TEK := mkTEK [x01%byte] 2650000 5 144.

Definition K1 : TEK := mkTEK [x01%byte] 2650000 5 144.
Definition K2 : TEK := mkTEK [x02%byte] 2650000 5 144.
Definition K3 : TEK := mkTEK [x03%byte] 2650000 2 144.

Definition three_keys : list Archive :=
  [mkArchive 1590000000 [K1; K2; K3];
   mkArchive 1590086400 [K1; K2; K3];
   mkArchive 1590172800 [K1; K3]].

Definition level2_only : list Archive :=
  [mkArchive 1590000000 [K3]; mkArchive 1590086400 [K3]].

Definition same_time_twice : list Archive :=
  [mkArchive 1590000000 [K1]; mkArchive 1590000000 [K1]].

(** One file below [root]. *)
Definition files_a : Files := {[ ["a.zip"] := File [x01%byte] ]}.

(** * Properties *)

(** ** Lists *)

Lemma filter_ext_elem_of {A} (P Q : A → Prop)
    `{!∀ x, Decision (P x)} `{!∀ x, Decision (Q x)} (l : list A) :
  (∀ x, x ∈ l → (P x ↔ Q x)) → filter P l = filter Q l.
Proof.
  induction l as [|x l IH]; intros HPQ; [done|].
  rewrite !filter_cons, IH by (intros y Hy; apply HPQ; by right).
  destruct (decide (P x)) as [HP|HP], (decide (Q x)) as [HQ|HQ]; try done.
  - apply HPQ in HP; [done|by left].
  - apply HPQ in HQ; [done|by left].
Qed.

(** ** Sorting *)

Section list_sort_facts.
Context {A K : Type} (key : A → K) (lt : K → K → bool).

Lemma sort_insert_perm x l : sort_insert key lt x l ≡ₚ x :: l.
Proof.
  induction l as [|y l IH]; simpl; [done|].
  destruct (lt (key y) (key x)); [|done].
  rewrite IH. apply Permutation_swap.
Qed.

Lemma list_sort_perm l : list_sort key lt l ≡ₚ l.
Proof.
  induction l as [|x l IH]; [done|].
  change (sort_insert key lt x (list_sort key lt l) ≡ₚ x :: l).
  by rewrite sort_insert_perm, IH.
Qed.

Lemma list_sort_elem_of x l : x ∈ list_sort key lt l ↔ x ∈ l.
Proof. by rewrite list_sort_perm. Qed.

Lemma list_sort_NoDup l : NoDup l → NoDup (list_sort key lt l).
Proof. by rewrite list_sort_perm. Qed.

Hypothesis lt_asym : ∀ a b, lt (key a) (key b) = true → lt (key b) (key a) = false.
Hypothesis not_after_trans :
  ∀ a b c, not_after key lt a b → not_after key lt b c → not_after key lt a c.

Lemma sort_insert_sorted x l :
  StronglySorted (not_after key lt) l →
  StronglySorted (not_after key lt) (sort_insert key lt x l).
Proof.
  induction 1 as [|y l Hl IH Hy]; simpl.
  - repeat constructor.
  - destruct (lt (key y) (key x)) eqn:Hyx.
    + constructor; [done|]. rewrite sort_insert_perm.
      constructor; [by apply lt_asym | done].
    + constructor; [by constructor|].
      constructor; [done|].
      eapply Forall_impl; [exact Hy|]. intros z Hz.
      by apply not_after_trans with y.
Qed.

Lemma list_sort_sorted l : StronglySorted (not_after key lt) (list_sort key lt l).
Proof.
  induction l as [|x l IH]; [constructor|].
  by apply sort_insert_sorted.
Qed.
End list_sort_facts.

Lemma type_str_ltb e1 e2 :
  String.ltb (type_str e1) (type_str e2) = (type_rank e1 <? type_rank e2).
Proof. by destruct e1, e2. Qed.

Lemma type_str_eqb e1 e2 :
  String.eqb (type_str e1) (type_str e2) = (type_rank e1 =? type_rank e2).
Proof. by destruct e1, e2. Qed.

Lemma event_ltb_rank e1 e2 :
  event_ltb e1 e2 = true ↔
    event_dt e1 < event_dt e2 ∨ event_dt e1 = event_dt e2 ∧
    (type_rank e1 < type_rank e2 ∨ type_rank e1 = type_rank e2 ∧
     (level (event_key e1) < level (event_key e2) ∨
      level (event_key e1) = level (event_key e2) ∧
      start_time (event_key e1) < start_time (event_key e2))).
Proof.
  unfold event_ltb, sort_key_of, sort_key_ltb.
  rewrite type_str_ltb, type_str_eqb.
  destruct (Z.eqb_spec (event_dt e1) (event_dt e2)); simpl;
    [|rewrite Z.ltb_lt; lia].
  destruct (Z.eqb_spec (type_rank e1) (type_rank e2)); simpl;
    [|rewrite Z.ltb_lt; lia].
  destruct (Z.eqb_spec (level (event_key e1)) (level (event_key e2))); simpl;
    rewrite Z.ltb_lt; lia.
Qed.

Lemma event_ltb_asym e1 e2 : event_ltb e1 e2 = true → event_ltb e2 e1 = false.
Proof.
  intros H%event_ltb_rank. apply not_true_iff_false.
  intros H'%event_ltb_rank. lia.
Qed.

Lemma event_not_after_trans e1 e2 e3 :
  event_ltb e2 e1 = false → event_ltb e3 e2 = false → event_ltb e3 e1 = false.
Proof.
  intros H1%not_true_iff_false H2%not_true_iff_false. apply not_true_iff_false.
  rewrite event_ltb_rank in *. lia.
Qed.

(** ** Start times *)

Lemma TEK_dt_representable k : representable k → TEK_dt k = Ok (start_time k).
Proof. intros H. unfold TEK_dt, utcfromtimestamp. by case_decide. Qed.

Lemma TEK_dt_not_representable k : ¬ representable k → TEK_dt k = Raise ValueError.
Proof. intros H. unfold TEK_dt, utcfromtimestamp. by case_decide. Qed.

Lemma TEK_dt_Ok k t : TEK_dt k = Ok t → representable k ∧ t = start_time k.
Proof.
  destruct (decide (representable k)) as [H|H].
  - rewrite TEK_dt_representable by done. by intros [= <-].
  - by rewrite TEK_dt_not_representable.
Qed.

Lemma TEK_dt_Raise k e : TEK_dt k = Raise e → e = ValueError ∧ ¬ representable k.
Proof.
  destruct (decide (representable k)) as [H|H].
  - by rewrite TEK_dt_representable.
  - rewrite TEK_dt_not_representable by done. by intros [= <-].
Qed.

(** ** The sort of the events *)

Section decorated.
Context {A K : Type} (key : A → K) (lt : K → K → bool).

Lemma sort_insert_decorated x l :
  sort_insert fst lt (key x, x) ((λ y, (key y, y)) <$> l) =
    (λ y, (key y, y)) <$> sort_insert key lt x l.
Proof.
  induction l as [|y l IH]; [done|]. simpl.
  destruct (lt (key y) (key x)); [|done]. by rewrite fmap_cons, <-IH.
Qed.

Lemma list_sort_decorated l :
  snd <$> list_sort fst lt ((λ y, (key y, y)) <$> l) = list_sort key lt l.
Proof.
  assert (list_sort fst lt ((λ y, (key y, y)) <$> l) =
          (λ y, (key y, y)) <$> list_sort key lt l) as ->.
  { induction l as [|x l IH]; [done|].
    change (sort_insert fst lt (key x, x) (list_sort fst lt ((λ y, (key y, y)) <$> l)) =
            (λ y, (key y, y)) <$> sort_insert key lt x (list_sort key lt l)).
    by rewrite IH, sort_insert_decorated. }
  rewrite <-list_fmap_compose. apply list_fmap_id.
Qed.
End decorated.

Lemma event_sort_key_representable e :
  representable (event_key e) → event_sort_key e = Ok (sort_key_of e).
Proof. intros H. unfold event_sort_key. by rewrite TEK_dt_representable. Qed.

Lemma sort_events_representable evs :
  Forall (λ e, representable (event_key e)) evs →
  sort_events evs = Ok (list_sort sort_key_of sort_key_ltb evs).
Proof.
  intros Hall. unfold sort_events.
  assert (list_comp (λ e, let* k := event_sort_key e in Ok (k, e)) evs =
          Ok ((λ e, (sort_key_of e, e)) <$> evs)) as ->.
  { induction Hall as [|e evs He Hall IH]; [done|]. simpl.
    rewrite event_sort_key_representable by done. simpl. by rewrite IH. }
  simpl. by rewrite list_sort_decorated.
Qed.

Lemma sort_events_not_representable evs :
  ¬ Forall (λ e, representable (event_key e)) evs →
  sort_events evs = Raise ValueError.
Proof.
  intros Hall. unfold sort_events.
  assert (list_comp (λ e, let* k := event_sort_key e in Ok (k, e)) evs =
          Raise ValueError) as ->; [|done].
  induction evs as [|e evs IH]; [by destruct Hall|]. simpl.
  destruct (decide (representable (event_key e))) as [He|He].
  - rewrite event_sort_key_representable by done. simpl.
    rewrite IH; [done|]. intros Hevs. apply Hall. by constructor.
  - unfold event_sort_key. by rewrite TEK_dt_not_representable.
Qed.

Lemma sort_events_Ok evs sorted :
  sort_events evs = Ok sorted →
  Forall (λ e, representable (event_key e)) evs ∧
  sorted = list_sort sort_key_of sort_key_ltb evs.
Proof.
  destruct (decide (Forall (λ e, representable (event_key e)) evs)) as [H|H].
  - rewrite sort_events_representable by done. by intros [= <-].
  - by rewrite sort_events_not_representable.
Qed.

Lemma sort_events_Raise evs e :
  sort_events evs = Raise e →
  e = ValueError ∧ ¬ Forall (λ e, representable (event_key e)) evs.
Proof.
  destruct (decide (Forall (λ e, representable (event_key e)) evs)) as [H|H].
  - by rewrite sort_events_representable.
  - rewrite sort_events_not_representable by done. by intros [= <-].
Qed.

Lemma sort_events_elem_of evs sorted e :
  sort_events evs = Ok sorted → e ∈ sorted ↔ e ∈ evs.
Proof. intros [_ ->]%sort_events_Ok. apply list_sort_elem_of. Qed.

(** ** The two loops of a transition *)

Section loops.
Context {O : SetOrder}.

Lemma set_iter_elem_of k s : k ∈ set_iter s ↔ k ∈ s.
Proof. by rewrite set_iter_perm, elem_of_elements. Qed.

Lemma set_iter_NoDup s : NoDup (set_iter s).
Proof. rewrite set_iter_perm. apply NoDup_elements. Qed.

Lemma intersection_elem_of k now_keys prev_keys :
  k ∈ intersection now_keys prev_keys ↔ k ∈ now_keys ∧ k ∈ prev_keys.
Proof.
  unfold intersection. rewrite list_sort_elem_of, set_iter_elem_of.
  by rewrite elem_of_intersection, !elem_of_list_to_set.
Qed.

Lemma intersection_NoDup now_keys prev_keys :
  NoDup (intersection now_keys prev_keys).
Proof. apply list_sort_NoDup, set_iter_NoDup. Qed.

(** [changed] is decided by the keys that are in [all_keys] right now. *)
Lemma add_key_changed prev_dt st key :
  key ∉ all_keys st →
  ∃ changed,
    events (add_key prev_dt st key) = events st ++ [AddedEvent key prev_dt changed] ∧
    (changed = true ↔ ∃ o, o ∈ all_keys st ∧ data key = data o).
Proof.
  intros Hk. unfold add_key. rewrite decide_False by done. simpl.
  eexists; split; [done|].
  rewrite existsb_exists. split.
  - intros (o & Ho%list_elem_of_In%set_iter_elem_of & Hd%bool_decide_eq_true). eauto.
  - intros (o & Ho & Hd). exists o. split.
    + by apply list_elem_of_In, set_iter_elem_of.
    + by apply bool_decide_eq_true.
Qed.

(** What the ADD loop does to each variable. *)
Lemma add_loop_spec prev_dt inter st :
  NoDup inter →
  let st' := add_loop prev_dt inter st in
  all_keys st' = all_keys st ∪ list_to_set inter ∧
  revoked_keys st' = revoked_keys st ∧
  prev st' = prev st ∧
  dts st' = dts st ∧
  (∀ k, added_when st' !! k =
        if decide (k ∈ inter ∧ k ∉ all_keys st) then Some prev_dt
        else added_when st !! k) ∧
  ∃ adds,
    events st' = events st ++ adds ∧
    Forall (λ e, is_added e = true ∧ event_dt e = prev_dt) adds ∧
    event_key <$> adds = filter (λ k, k ∉ all_keys st) inter.
Proof.
  intros Hnd. revert st. induction Hnd as [|x inter Hx Hnd IH]; intros st; simpl.
  - split; [set_solver|]. do 3 (split; [done|]). split.
    + done.
    + exists []. by rewrite app_nil_r.
  - destruct (IH (add_key prev_dt st x))
      as (Hall & Hrev & Hprev & Hdts & Haw & adds & Hev & Hadds & Hkeys).
    change (foldl (add_key prev_dt) (add_key prev_dt st x) inter)
      with (add_loop prev_dt inter (add_key prev_dt st x)).
    rewrite Hall, Hrev, Hprev, Hdts, Hev. rewrite filter_cons.
    setoid_rewrite Haw. clear Hall Hrev Hprev Hdts Hev Haw.
    unfold add_key in *. destruct (decide (x ∈ all_keys st)) as [Hin|Hin]; simpl in *.
    + rewrite decide_False by tauto.
      split; [set_solver|]. do 3 (split; [done|]). split.
      * intros k. repeat case_decide; try done; set_solver.
      * by exists adds.
    + rewrite decide_True by done.
      split; [set_solver|]. do 3 (split; [done|]). split.
      * intros k. destruct (decide (k = x)) as [->|Hne].
        -- rewrite lookup_insert_eq. repeat case_decide; try done; set_solver.
        -- rewrite lookup_insert_ne by done. repeat case_decide; try done; set_solver.
      * eexists (_ :: adds). split; [by rewrite <-app_assoc|]. split.
        -- by constructor.
        -- rewrite fmap_cons. simpl. f_equal. rewrite Hkeys.
           apply filter_ext_elem_of. intros k Hk. set_solver.
Qed.

(** What the REVOKE/AUTO_REMOVE loop does when it runs over the keys
    [ks] of [all_keys]: each key that is not in [inter] leaves [all_keys]
    with one event; the loop raises only at such a key whose start is not a
    [datetime]. *)
Lemma depart_for_each_spec dt inter ks st :
  NoDup ks →
  (∀ k, k ∈ ks → k ∈ all_keys st) →
  all_keys st ⊆ dom (added_when st) →
  match for_each (depart_key dt inter) st ks with
  | Ok st' =>
      Forall representable (filter (λ k, k ∉ inter) ks) ∧
      all_keys st' = all_keys st ∖ list_to_set (filter (λ k, k ∉ inter) ks) ∧
      revoked_keys st' =
        revoked_keys st ∪
        list_to_set
          (filter (λ k, (k ∉ inter) ∧ (dt - start_time k ≤ timedelta_days 8)) ks) ∧
      prev st' = prev st ∧
      dts st' = dts st ∧
      added_when st' = added_when st ∧
      events st' =
        events st ++ (departure_event dt (added_when st) <$> filter (λ k, k ∉ inter) ks)
  | Raise e =>
      e = ValueError ∧ ¬ Forall representable (filter (λ k, k ∉ inter) ks)
  end.
Proof.
  intros Hnd. revert st. induction Hnd as [|x ks Hx Hnd IH]; intros st Hks Hdom.
  - simpl. rewrite app_nil_r. split; [constructor|].
    repeat split; try done; set_solver.
  - assert (x ∈ all_keys st) as Hxin by (apply Hks; left).
    assert (is_Some (added_when st !! x)) as [a Ha]
      by (apply elem_of_dom; set_solver).
    cbn [for_each]. rewrite !filter_cons.
    unfold depart_key at 1. destruct (decide (x ∈ inter)) as [Hi|Hi].
    + cbn [py_bind]. rewrite !decide_False by tauto.
      apply IH; [|done]. intros k Hk. apply Hks. by right.
    + rewrite !(decide_True (P := x ∉ inter)) by done.
      destruct (decide (representable x)) as [Hr|Hr]; cycle 1.
      { rewrite TEK_dt_not_representable by done. cbn [py_bind].
        split; [done|]. by intros [? _]%Forall_cons. }
      rewrite TEK_dt_representable by done. cbn [py_bind].
      unfold added_when_get. rewrite Ha.
      unfold all_keys_remove. cbn [all_keys emit revoke py_bind].
      rewrite !(decide_True (P := x ∈ all_keys st)) by done.
      destruct (decide (dt - start_time x ≤ timedelta_days 8)) as [Hage|Hage].
      * rewrite decide_True by done. cbn [py_bind].
        match goal with |- context [for_each _ ?s ks] =>
          pose proof (IH s) as IHs;
          destruct (for_each (depart_key dt inter) s ks) as [st'|e] eqn:Hrun
        end.
        -- destruct IHs as (Hrep & Hall & Hrev & Hprev & Hdts & Haw & Hev).
           { simpl. intros k Hk. apply elem_of_difference.
             split; [apply Hks; by right|]. set_solver. }
           { simpl. set_solver. }
           simpl in *. rewrite Hall, Hrev, Hprev, Hdts, Haw, Hev.
           split; [by constructor|]. split; [set_solver|]. split; [set_solver|].
           do 3 (split; [done|]).
           rewrite <-app_assoc. simpl. do 2 f_equal.
           unfold departure_event. rewrite decide_True by done. by rewrite Ha.
        -- destruct IHs as [-> Hn].
           { simpl. intros k Hk. apply elem_of_difference.
             split; [apply Hks; by right|]. set_solver. }
           { simpl. set_solver. }
           split; [done|]. by intros [_ ?]%Forall_cons.
      * rewrite decide_False by tauto. cbn [py_bind].
        match goal with |- context [for_each _ ?s ks] =>
          pose proof (IH s) as IHs;
          destruct (for_each (depart_key dt inter) s ks) as [st'|e] eqn:Hrun
        end.
        -- destruct IHs as (Hrep & Hall & Hrev & Hprev & Hdts & Haw & Hev).
           { simpl. intros k Hk. apply elem_of_difference.
             split; [apply Hks; by right|]. set_solver. }
           { simpl. set_solver. }
           simpl in *. rewrite Hall, Hrev, Hprev, Hdts, Haw, Hev.
           split; [by constructor|]. split; [set_solver|]. do 4 (split; [done|]).
           rewrite <-app_assoc. simpl. do 2 f_equal.
           unfold departure_event. rewrite decide_False by done. by rewrite Ha.
        -- destruct IHs as [-> Hn].
           { simpl. intros k Hk. apply elem_of_difference.
             split; [apply Hks; by right|]. set_solver. }
           { simpl. set_solver. }
           split; [done|]. by intros [_ ?]%Forall_cons.
Qed.
End loops.

Lemma replay_app live evs1 evs2 :
  replay live (evs1 ++ evs2) = replay live evs1 ≫= λ live', replay live' evs2.
Proof.
  revert live. induction evs1 as [|e evs1 IH]; intros live; [done|].
  destruct e; simpl; try apply IH. case_decide; [done|apply IH].
Qed.

Lemma replay_adds live adds :
  Forall (λ e, is_added e = true) adds →
  NoDup (event_key <$> adds) →
  (∀ k, k ∈ event_key <$> adds → k ∉ live) →
  replay live adds = Some (list_to_set (event_key <$> adds) ∪ live).
Proof.
  intros Hadds. revert live. induction Hadds as [|e adds He Hadds IH]; intros live Hnd Hfresh.
  - simpl. f_equal. set_solver.
  - destruct e; try done. rewrite fmap_cons in Hnd, Hfresh. simpl in *.
    apply NoDup_cons in Hnd as [Hk Hnd].
    rewrite decide_False by (apply Hfresh; left).
    rewrite IH; [f_equal; set_solver|done|].
    intros k' Hk'. assert (k' ∉ live) by (apply Hfresh; by right). set_solver.
Qed.

Lemma replay_departures live deps :
  Forall (λ e, is_departure e = true) deps →
  replay live deps = Some (live ∖ list_to_set (event_key <$> deps)).
Proof.
  intros Hdeps. revert live. induction Hdeps as [|e deps He Hdeps IH]; intros live.
  - simpl. f_equal. set_solver.
  - destruct e; try done; simpl; rewrite IH; f_equal; set_solver.
Qed.

Lemma replay_departure_between k live evs live' :
  replay live evs = Some live' → k ∈ live → k ∉ live' →
  Exists (departure_of k) evs.
Proof.
  revert live. induction evs as [|e evs IH]; intros live Hrun Hin Hout.
  - simpl in Hrun. by simplify_eq.
  - destruct (decide (departure_of k e)) as [|Hne]; [by left|]. right.
    destruct e; simpl in Hrun.
    + eapply IH; [done| |done]. unfold departure_of in Hne. simpl in Hne. set_solver.
    + case_decide; [done|]. eapply IH; [done| |done]. set_solver.
    + eapply IH; [done| |done]. unfold departure_of in Hne. simpl in Hne. set_solver.
Qed.

Lemma replay_one_live_interval live evs :
  is_Some (replay live evs) → one_live_interval evs.
Proof.
  intros [live' Hrun] l1 l2 l3 k t1 c1 t2 c2 ->.
  rewrite replay_app in Hrun.
  destruct (replay live l1) as [live1|]; [|done]. simpl in Hrun.
  case_decide; [done|].
  rewrite replay_app in Hrun.
  destruct (replay ({[k]} ∪ live1) l2) as [live2|] eqn:Hl2; [|done]. simpl in Hrun.
  case_decide; [done|].
  eapply replay_departure_between; [done| |done]. set_solver.
Qed.

(** ** One transition *)

Lemma departure_event_key dt aw k : event_key (departure_event dt aw k) = k.
Proof. unfold departure_event. by case_decide. Qed.

Lemma departure_event_dt dt aw k : event_dt (departure_event dt aw k) = dt.
Proof. unfold departure_event. by case_decide. Qed.

Lemma departure_event_is_departure dt aw k :
  is_departure (departure_event dt aw k) = true.
Proof. unfold departure_event. by case_decide. Qed.

Lemma departure_events_keys dt aw (ks : list TEK) :
  event_key <$> (departure_event dt aw <$> ks) = ks.
Proof.
  induction ks as [|k ks IH]; [done|].
  rewrite !fmap_cons, IH. by rewrite departure_event_key.
Qed.

Section transition.
Context {O : SetOrder}.

Lemma process_archive_first st a :
  prev st = None →
  process_archive st a =
    Ok (set_prev (load_keys a) (archive_dt a) (dts_append (archive_dt a) st)).
Proof. intros Hprev. unfold process_archive. simpl. by rewrite Hprev. Qed.

Lemma departing_elem_of st inter k :
  k ∈ departing st inter ↔ k ∈ all_keys st ∧ k ∉ inter.
Proof.
  unfold departing. rewrite list_elem_of_filter, set_iter_elem_of.
  rewrite elem_of_union, elem_of_list_to_set. tauto.
Qed.

Lemma departing_NoDup st inter : NoDup (departing st inter).
Proof. apply NoDup_filter, set_iter_NoDup. Qed.

(** A transition from a state that has a previous archive: the ADD loop
    appends [adds], the REVOKE/AUTO_REMOVE loop appends one event for each
    departing key; it raises only at a departing key whose start is not a
    [datetime]. *)
Lemma process_archive_next st a pk pdt :
  prev st = Some (pk, pdt) →
  all_keys st ⊆ dom (added_when st) →
  let inter := intersection (load_keys a) pk in
  let dt := archive_dt a in
  match process_archive st a with
  | Ok st' =>
      Forall representable (departing st inter) ∧
      ∃ adds,
        prev st' = Some (load_keys a, dt) ∧
        dts st' = dts st ++ [dt] ∧
        all_keys st' = list_to_set inter ∧
        revoked_keys st' =
          revoked_keys st ∪
          list_to_set
            (filter (λ k, dt - start_time k ≤ timedelta_days 8) (departing st inter)) ∧
        (∀ k, added_when st' !! k =
              if decide (k ∈ inter ∧ k ∉ all_keys st) then Some pdt
              else added_when st !! k) ∧
        events st' =
          events st ++ adds ++ (departure_event dt (added_when st) <$> departing st inter) ∧
        Forall (λ e, is_added e = true ∧ event_dt e = pdt) adds ∧
        event_key <$> adds = filter (λ k, k ∉ all_keys st) inter
  | Raise e => e = ValueError ∧ ¬ Forall representable (departing st inter)
  end.
Proof.
  intros Hprev Hdom inter dt.
  unfold process_archive. cbn [prev dts_append]. rewrite Hprev.
  fold inter dt.
  destruct (add_loop_spec pdt inter (dts_append dt st))
    as (Hall & Hrev & Hprev1 & Hdts & Haw & adds & Hev & Hadds & Hkeys).
  { apply intersection_NoDup. }
  set (st1 := add_loop pdt inter (dts_append dt st)) in *.
  cbn [all_keys revoked_keys prev dts added_when events dts_append] in *.
  pose proof (depart_for_each_spec dt inter (set_iter (all_keys st1)) st1) as Hloop.
  unfold depart_loop.
  destruct (for_each (depart_key dt inter) st1 (set_iter (all_keys st1)))
    as [st2|e] eqn:Hrun; cbn [py_bind].
  - destruct Hloop as (Hrep & Hall2 & Hrev2 & Hprev2 & Hdts2 & Haw2 & Hev2).
    { apply set_iter_NoDup. }
    { intros k. by rewrite set_iter_elem_of. }
    { intros k Hk. apply elem_of_dom. rewrite Haw. case_decide; [done|].
      apply elem_of_dom, Hdom. rewrite Hall, elem_of_union, elem_of_list_to_set in Hk.
      destruct (decide (k ∈ all_keys st)); tauto. }
    rewrite Hall in Hrep. fold (departing st inter) in Hrep.
    split; [done|]. exists adds.
    cbn [set_prev prev dts all_keys revoked_keys added_when events].
    rewrite Hall2, Hrev2, Hdts2, Haw2, Hev2, Hrev, Hdts, Hev, Hall.
    fold (departing st inter).
    split; [done|]. split; [done|]. split; [|split; [|split; [done|split]]].
    + apply set_eq. intros k.
      rewrite elem_of_difference, elem_of_union, !elem_of_list_to_set, departing_elem_of.
      destruct (decide (k ∈ inter)); tauto.
    + f_equal. apply set_eq. intros k.
      rewrite !elem_of_list_to_set, !list_elem_of_filter. unfold departing.
      rewrite list_elem_of_filter. tauto.
    + rewrite <-app_assoc. do 2 f_equal.
      apply list_fmap_ext. intros i k Hk%list_elem_of_lookup_2%departing_elem_of.
      unfold departure_event. rewrite Haw. rewrite (decide_False (P := _ ∧ _)) by tauto.
      done.
    + done.
  - destruct Hloop as [-> Hrep].
    { apply set_iter_NoDup. }
    { intros k. by rewrite set_iter_elem_of. }
    { intros k Hk. apply elem_of_dom. rewrite Haw. case_decide; [done|].
      apply elem_of_dom, Hdom. rewrite Hall, elem_of_union, elem_of_list_to_set in Hk.
      destruct (decide (k ∈ all_keys st)); tauto. }
    rewrite Hall in Hrep. by fold (departing st inter) in Hrep.
Qed.

(** A transition that returns. *)
Lemma process_archive_next_Ok st a pk pdt st' :
  prev st = Some (pk, pdt) →
  all_keys st ⊆ dom (added_when st) →
  process_archive st a = Ok st' →
  let inter := intersection (load_keys a) pk in
  let dt := archive_dt a in
  ∃ adds,
    prev st' = Some (load_keys a, dt) ∧
    dts st' = dts st ++ [dt] ∧
    all_keys st' = list_to_set inter ∧
    revoked_keys st' =
      revoked_keys st ∪
      list_to_set
        (filter (λ k, dt - start_time k ≤ timedelta_days 8) (departing st inter)) ∧
    (∀ k, added_when st' !! k =
          if decide (k ∈ inter ∧ k ∉ all_keys st) then Some pdt
          else added_when st !! k) ∧
    events st' =
      events st ++ adds ++ (departure_event dt (added_when st) <$> departing st inter) ∧
    Forall (λ e, is_added e = true ∧ event_dt e = pdt) adds ∧
    event_key <$> adds = filter (λ k, k ∉ all_keys st) inter ∧
    Forall representable (departing st inter).
Proof.
  intros Hprev Hdom Hrun inter dt.
  pose proof (process_archive_next st a pk pdt Hprev Hdom) as Hnext.
  cbv zeta in Hnext. rewrite Hrun in Hnext.
  destruct Hnext as (Hrep & adds & H1 & H2 & H3 & H4 & H5 & H6 & H7 & H8).
  exists adds. by repeat split.
Qed.

(** A transition raises nothing but the [ValueError] of a key of
    [all_keys]. *)
Lemma process_archive_Raise st a e :
  all_keys st ⊆ dom (added_when st) →
  process_archive st a = Raise e →
  e = ValueError ∧ ∃ k, k ∈ all_keys st ∧ ¬ representable k.
Proof.
  intros Hdom Hrun. destruct (prev st) as [[pk pdt]|] eqn:Hp.
  - pose proof (process_archive_next st a pk pdt Hp Hdom) as Hnext.
    cbv zeta in Hnext. rewrite Hrun in Hnext. destruct Hnext as [-> Hrep].
    split; [done|].
    apply not_Forall_Exists in Hrep; [|apply _].
    apply Exists_exists in Hrep as (k & [Hk _]%departing_elem_of & Hn). eauto.
  - by rewrite process_archive_first in Hrun.
Qed.
End transition.

Lemma Inv_init : Inv init.
Proof.
  split; simpl; try done.
  - intros k. split; [set_solver|]. intros (t & a & H). by apply elem_of_nil in H.
  - intros e H. by apply elem_of_nil in H.
Qed.

Lemma added_not_revoked adds k t a :
  Forall (λ e, is_added e = true ∧ event_dt e = t) adds →
  ∀ t', RevokedEvent k t' a ∉ adds.
Proof.
  intros Hadds t' Hin. rewrite Forall_forall in Hadds.
  by destruct (Hadds _ Hin).
Qed.

Section invariant.
Context {O : SetOrder}.

Lemma Inv_add_loop prev_dt inter st :
  NoDup inter → prev_dt ∈ dts st → Inv st → Inv (add_loop prev_dt inter st).
Proof.
  intros Hnd Hdt [Hdom Hreplay Hrevoked Hdts Hprev].
  destruct (add_loop_spec prev_dt inter st Hnd)
    as (Hall & Hrev & Hprev1 & Hdts1 & Haw & adds & Hev & Hadds & Hkeys).
  split.
  - intros k Hk. apply elem_of_dom. rewrite Haw. case_decide; [done|].
    apply elem_of_dom, Hdom. rewrite Hall, elem_of_union, elem_of_list_to_set in Hk.
    destruct (decide (k ∈ all_keys st)); tauto.
  - rewrite Hev, replay_app, Hreplay. simpl.
    rewrite replay_adds.
    + f_equal. rewrite Hall, Hkeys. apply set_eq. intros k.
      rewrite !elem_of_union, !elem_of_list_to_set, list_elem_of_filter.
      destruct (decide (k ∈ all_keys st)); tauto.
    + eapply Forall_impl; [done|]. by intros e [? _].
    + rewrite Hkeys. by apply NoDup_filter.
    + intros k. rewrite Hkeys, list_elem_of_filter. tauto.
  - intros k. rewrite Hrev, Hrevoked, Hev. split.
    + intros (t & a & H). exists t, a. apply elem_of_app. by left.
    + intros (t & a & [H|H]%elem_of_app); [by eauto|].
      by eapply added_not_revoked in H.
  - intros e. rewrite Hev, Hdts1. intros [H|H]%elem_of_app; [by apply Hdts|].
    rewrite Forall_forall in Hadds. by destruct (Hadds _ H) as [_ ->].
  - intros pk pdt. rewrite Hprev1, Hdts1. apply Hprev.
Qed.

Lemma Inv_process_archive st a st' :
  Inv st →
  process_archive st a = Ok st' →
  Inv st' ∧
  prev st' = Some (load_keys a, archive_dt a) ∧
  dts st' = dts st ++ [archive_dt a] ∧
  all_keys st' ⊆ all_keys st ∪ list_to_set (load_keys a).
Proof.
  intros [Hdom Hreplay Hrevoked Hdts Hprev] Hrun.
  destruct (prev st) as [[pk pdt]|] eqn:Hp.
  - destruct (process_archive_next_Ok st a pk pdt st' Hp Hdom Hrun)
      as (adds & Hprev' & Hdts' & Hall & Hrev & Haw & Hev & Hadds & Hkeys & Hrep).
    split; [|split; [done|split; [done|]]]; cycle 1.
    { rewrite Hall. intros k [Hk _]%elem_of_list_to_set%intersection_elem_of.
      apply elem_of_union. right. by apply elem_of_list_to_set. }
    set (inter := intersection (load_keys a) pk) in *.
    set (deps := departure_event (archive_dt a) (added_when st) <$> departing st inter) in *.
    assert (NoDup inter) as Hnd by apply intersection_NoDup.
    split.
    + intros k Hk. apply elem_of_dom. rewrite Haw. case_decide; [done|].
      apply elem_of_dom, Hdom. rewrite Hall, elem_of_list_to_set in Hk.
      destruct (decide (k ∈ all_keys st)); tauto.
    + rewrite Hev, replay_app, Hreplay. simpl.
      rewrite replay_app, replay_adds.
      * simpl. rewrite replay_departures.
        -- f_equal. rewrite Hall, Hkeys. unfold deps. rewrite departure_events_keys.
           apply set_eq. intros k.
           rewrite elem_of_difference, !elem_of_union, !elem_of_list_to_set,
             list_elem_of_filter, departing_elem_of.
           destruct (decide (k ∈ all_keys st)), (decide (k ∈ inter)); tauto.
        -- apply Forall_fmap, Forall_true. intros k.
           apply departure_event_is_departure.
      * eapply Forall_impl; [done|]. by intros e [? _].
      * rewrite Hkeys. by apply NoDup_filter.
      * intros k. rewrite Hkeys, list_elem_of_filter. tauto.
    + intros k. rewrite Hrev, elem_of_union, Hrevoked, Hev.
      rewrite elem_of_list_to_set, list_elem_of_filter. split.
      * intros [(t & a' & H)|[Hage Hk]].
        -- exists t, a'. apply elem_of_app. by left.
        -- exists (archive_dt a), (default 0 (added_when st !! k)).
           rewrite !elem_of_app. right. right.
           apply list_elem_of_fmap. exists k. split; [|done].
           unfold departure_event. by rewrite decide_True.
      * intros (t & a' & [H|[H|H]%elem_of_app]%elem_of_app).
        -- left. eauto.
        -- by eapply added_not_revoked in H.
        -- right. apply list_elem_of_fmap in H as (k' & Heq & Hk').
           unfold departure_event in Heq. case_decide; simplify_eq. done.
    + intros e. rewrite Hev, Hdts', !elem_of_app.
      intros [H|[H|H]].
      * left. by apply Hdts.
      * left. rewrite Forall_forall in Hadds. destruct (Hadds _ H) as [_ ->].
        by eapply Hprev.
      * right. apply list_elem_of_fmap in H as (k' & -> & Hk').
        rewrite departure_event_dt. by left.
    + intros pk' pdt'. rewrite Hprev', Hdts'. intros [= _ <-].
      apply elem_of_app. right. by left.
  - rewrite process_archive_first in Hrun by done. injection Hrun as <-.
    split; [|split; [done|split; [done|]]]; [|simpl; set_solver].
    split; simpl; try done.
    + intros e He. apply elem_of_app. left. by apply Hdts.
    + intros pk pdt [= _ <-]. apply elem_of_app. right. by left.
Qed.

(** The loop over the archives, when it returns. *)
Lemma for_each_process_archive st archives st' :
  Inv st →
  for_each process_archive st archives = Ok st' →
  Inv st' ∧
  dts st' = dts st ++ (archive_dt <$> archives) ∧
  prev st' = default (prev st)
               ((λ a, Some (load_keys a, archive_dt a)) <$> last archives).
Proof.
  revert st. induction archives as [|a archives IH]; intros st Hinv Hrun.
  - simpl in Hrun. injection Hrun as <-. simpl. by rewrite app_nil_r.
  - cbn [for_each] in Hrun.
    destruct (process_archive st a) as [st1|] eqn:Hstep; [|done].
    cbn [py_bind] in Hrun.
    destruct (Inv_process_archive st a st1 Hinv Hstep) as (Hinv1 & Hprev1 & Hdts1 & _).
    destruct (IH st1 Hinv1 Hrun) as (Hinv' & Hdts' & Hprev').
    split; [done|]. split.
    + rewrite Hdts', Hdts1, <-app_assoc. done.
    + rewrite Hprev', Hprev1. destruct archives as [|a' archives]; [done|].
      rewrite last_cons_cons.
      destruct (last (a' :: archives)) eqn:Hlast; [done|by apply last_None in Hlast].
Qed.

(** The loop raises nothing but the [ValueError] of a key whose start is
    not a [datetime]. *)
Lemma for_each_process_archive_Raise st archives e :
  Inv st →
  for_each process_archive st archives = Raise e →
  e = ValueError ∧
  ∃ k, ¬ representable k ∧
       (k ∈ all_keys st ∨ ∃ a, a ∈ archives ∧ k ∈ load_keys a).
Proof.
  revert st. induction archives as [|a archives IH]; intros st Hinv Hrun; [done|].
  cbn [for_each] in Hrun.
  destruct (process_archive st a) as [st1|e1] eqn:Hstep; cbn [py_bind] in Hrun.
  - destruct (Inv_process_archive st a st1 Hinv Hstep) as (Hinv1 & _ & _ & Hsub).
    destruct (IH st1 Hinv1 Hrun) as (-> & k & Hk & Hin).
    split; [done|]. exists k. split; [done|].
    destruct Hin as [Hin|(b & Hb & Hin)].
    + apply Hsub, elem_of_union in Hin as [?|Hin%elem_of_list_to_set]; [by left|].
      right. exists a. split; [left|done].
    + right. exists b. split; [by right|done].
  - injection Hrun as <-.
    destruct (process_archive_Raise st a e1 (inv_added_when st Hinv) Hstep)
      as (-> & k & Hk & Hn).
    split; [done|]. exists k. split; [done|]. by left.
Qed.

Lemma walk_ok archives st :
  walk archives = Ok st →
  Inv st ∧
  dts st = archive_dt <$> archives ∧
  prev st = (λ a, (load_keys a, archive_dt a)) <$> last archives.
Proof.
  intros Hrun.
  destruct (for_each_process_archive init archives st Inv_init Hrun)
    as (Hinv & Hdts & Hprev).
  split; [done|]. split; [done|].
  rewrite Hprev. simpl. by destruct (last archives).
Qed.

Lemma walk_Raise archives e :
  walk archives = Raise e → e = ValueError ∧ ¬ archives_ok archives.
Proof.
  intros Hrun.
  destruct (for_each_process_archive_Raise init archives e Inv_init Hrun)
    as (-> & k & Hk & [Hin|(a & Ha & Hin)]); [set_solver|].
  split; [done|]. intros Hok. unfold archives_ok in Hok.
  rewrite Forall_forall in Hok. specialize (Hok a Ha).
  rewrite Forall_forall in Hok. by apply Hk, Hok.
Qed.

Lemma walk_snoc archives a :
  walk (archives ++ [a]) = let* st := walk archives in process_archive st a.
Proof.
  unfold walk. generalize init. induction archives as [|b archives IH]; intros st; simpl.
  - by destruct (process_archive st a).
  - destruct (process_archive st b); simpl; [apply IH|done].
Qed.

(** The extraction, when it returns. *)
Lemma extract_ok a archives last_archive st :
  extract (a :: archives) last_archive = Ok st →
  Inv st ∧ dts st = archive_dt <$> (a :: archives).
Proof.
  unfold extract. destruct (walk (a :: archives)) as [st0|] eqn:Hwalk; [|done].
  cbn [py_bind]. destruct (walk_ok _ _ Hwalk) as (Hinv & Hdts & Hprev).
  unfold last_pass.
  destruct (last (a :: archives)) as [b|] eqn:Hlast; [|by apply last_None in Hlast].
  rewrite Hprev. simpl. intros [= <-]. split.
  - apply Inv_add_loop; [apply intersection_NoDup| |done].
    by apply (inv_prev_dt st0 Hinv (load_keys b)).
  - destruct (add_loop_spec (archive_dt b)
                (intersection (load_keys last_archive) (load_keys b)) st0)
      as (_ & _ & _ & -> & _); [apply intersection_NoDup|done].
Qed.

(** With at least one archive the extraction raises nothing but the
    [ValueError] of a key whose start is not a [datetime]. *)
Lemma extract_Raise a archives last_archive e :
  extract (a :: archives) last_archive = Raise e →
  e = ValueError ∧ ¬ archives_ok (a :: archives).
Proof.
  unfold extract. destruct (walk (a :: archives)) as [st0|e0] eqn:Hwalk.
  - cbn [py_bind]. destruct (walk_ok _ _ Hwalk) as (_ & _ & Hprev).
    unfold last_pass.
    destruct (last (a :: archives)) as [b|] eqn:Hlast; [|by apply last_None in Hlast].
    by rewrite Hprev.
  - cbn [py_bind]. intros [= <-]. by apply walk_Raise.
Qed.

Lemma walk_gives archives (P : State → Prop) :
  (∀ st, walk archives = Ok st → P st) → gives archives (walk archives) P.
Proof.
  intros HP. unfold gives. destruct (walk archives) as [st|e] eqn:Hrun.
  - by apply HP.
  - by apply walk_Raise.
Qed.

Lemma extract_gives a archives last_archive (P : State → Prop) :
  (∀ st, extract (a :: archives) last_archive = Ok st → P st) →
  gives (a :: archives) (extract (a :: archives) last_archive) P.
Proof.
  intros HP. unfold gives.
  destruct (extract (a :: archives) last_archive) as [st|e] eqn:Hrun.
  - by apply HP.
  - by eapply extract_Raise.
Qed.
End invariant.

(** ** The report *)

Lemma bucket_incr k d i :
  bucket (incr k d) i = if decide (i = k) then bucket d i + 1 else bucket d i.
Proof.
  unfold bucket, incr. case_decide as Hi.
  - subst. by rewrite lookup_insert_eq.
  - by rewrite lookup_insert_ne.
Qed.

Lemma count_event_uncounted revoked c e :
  ¬ counted revoked e → count_event revoked c e = c.
Proof.
  unfold counted. destruct e; simpl; try done. intros Hn.
  destruct (bool_decide (level key = 5)) eqn:Hl; [|done].
  destruct (bool_decide (key ∈ revoked)) eqn:Hr; [done|].
  apply bool_decide_eq_true in Hl. apply bool_decide_eq_false in Hr. tauto.
Qed.

Lemma count_event_counted revoked c e :
  counted revoked e →
  count_event revoked c e =
    {| days_count := incr (interval (event_key e)) (days_count c);
       tot_days_count := incr (interval (event_key e)) (tot_days_count c) |}.
Proof.
  unfold counted. destruct e; simpl; try (intros [? _]; done). intros (_ & Hl & Hr).
  by rewrite (bool_decide_eq_true_2 _ Hl), (bool_decide_eq_false_2 _ Hr).
Qed.

Lemma count_events_tot revoked evs c i :
  bucket (tot_days_count (foldl (count_event revoked) c evs)) i =
    bucket (tot_days_count c) i + Z.of_nat (length (counted_in revoked i evs)).
Proof.
  unfold counted_in. revert c. induction evs as [|e evs IH]; intros c; simpl; [lia|].
  rewrite IH, filter_cons. destruct (decide (counted revoked e)) as [He|He].
  - rewrite count_event_counted by done. simpl. rewrite bucket_incr.
    repeat case_decide; simpl; try tauto; try lia. subst. tauto.
  - rewrite count_event_uncounted by done.
    rewrite decide_False by tauto. done.
Qed.

Lemma foldl_max_spec x l :
  (foldl Z.max x l = x ∨ foldl Z.max x l ∈ l) ∧
  x ≤ foldl Z.max x l ∧
  ∀ y, y ∈ l → y ≤ foldl Z.max x l.
Proof.
  revert x. induction l as [|z l IH]; intros x; simpl.
  - split; [by left|]. split; [lia|]. intros y Hy. by apply elem_of_nil in Hy.
  - destruct (IH (x `max` z)) as (Hmem & Hge & Hall).
    split; [|split].
    + destruct Hmem as [Heq|Hin]; [|right; by right].
      rewrite Heq.
      destruct (Z.max_spec x z) as [[_ ->]|[_ ->]]; [right; left|by left].
    + lia.
    + intros y [->|Hy]%elem_of_cons; [lia|by apply Hall].
Qed.

Lemma max_values_ok d : d ≠ ∅ → ∃ n, max_values d = Ok n.
Proof.
  intros Hd. unfold max_values.
  destruct (map_to_list d) as [|[i x] l] eqn:Hl.
  - by apply map_to_list_empty_iff in Hl.
  - simpl. eauto.
Qed.

Lemma max_values_spec d n :
  max_values d = Ok n →
  (∃ i, d !! i = Some n) ∧ ∀ i v, d !! i = Some v → v ≤ n.
Proof.
  unfold max_values.
  assert (∀ v, v ∈ (map_to_list d).*2 ↔ ∃ i, d !! i = Some v) as Hvals.
  { intros v. rewrite list_elem_of_fmap. split.
    - intros ([i v'] & -> & Hin%elem_of_map_to_list). by exists i.
    - intros (i & Hi). exists (i, v). split; [done|]. by apply elem_of_map_to_list. }
  destruct ((map_to_list d).*2) as [|x l]; [done|]. intros [= <-].
  destruct (foldl_max_spec x l) as (Hmem & Hge & Hall). split.
  - apply Hvals. destruct Hmem as [->|Hin]; [left|by right].
  - intros i v Hi. assert (v ∈ x :: l) as [->|Hv]%elem_of_cons by (apply Hvals; eauto).
    + done.
    + by apply Hall.
Qed.

Lemma report_dt_ok revoked evs r dt :
  ∃ line,
    report_dt revoked evs r dt =
      Ok {| diagnosed_at := diagnosed_at r ++ [(dt, line)];
            totals := tot_days_count
                        (foldl (count_event revoked)
                           {| days_count := ∅; tot_days_count := totals r |}
                           (filter (λ e, event_dt e = dt) evs)) |}.
Proof.
  unfold report_dt. case_decide as Hd; simpl; [by eexists|].
  destruct (max_values_ok _ Hd) as [n ->]. simpl. by eexists.
Qed.

(** The loop over [dts] never raises; it counts the events as often as
    their time occurs in [dts]. *)
Lemma for_each_report_dt revoked evs r dts :
  ∃ r',
    for_each (report_dt revoked evs) r dts = Ok r' ∧
    ∀ i, bucket (totals r') i =
         bucket (totals r) i + Z.of_nat (length (counted_in revoked i (grouped dts evs))).
Proof.
  revert r. induction dts as [|dt dts IH]; intros r.
  - exists r. split; [done|]. intros i. unfold grouped. simpl. lia.
  - destruct (report_dt_ok revoked evs r dt) as [line Hrun].
    cbn [for_each]. rewrite Hrun. cbn [py_bind].
    match goal with |- ∃ _, for_each _ ?r1 _ = _ ∧ _ =>
      destruct (IH r1) as (r' & Hrun' & Htot)
    end.
    exists r'. split; [done|]. intros i. rewrite Htot. cbn [totals].
    rewrite count_events_tot. cbn [tot_days_count].
    unfold grouped, counted_in. rewrite fmap_cons. simpl.
    rewrite filter_app, length_app. lia.
Qed.

Lemma filter_dt_split d dts (evs : list Event) :
  d ∉ dts →
  filter (λ e, event_dt e ∈ d :: dts) evs ≡ₚ
    filter (λ e, event_dt e = d) evs ++ filter (λ e, event_dt e ∈ dts) evs.
Proof.
  intros Hd. induction evs as [|e evs IH]; [done|].
  rewrite !filter_cons.
  destruct (decide (event_dt e = d)) as [He|He].
  - rewrite decide_True by (rewrite He; left).
    rewrite decide_False by (by rewrite He). simpl. by rewrite IH.
  - destruct (decide (event_dt e ∈ dts)) as [Hin|Hin].
    + rewrite decide_True by (by right). rewrite IH. apply Permutation_middle.
    + rewrite decide_False; [done|]. rewrite elem_of_cons. tauto.
Qed.

(** With distinct archive times, and every event dated with one of them,
    the report visits every event once. *)
Lemma grouped_perm dts evs :
  NoDup dts → (∀ e, e ∈ evs → event_dt e ∈ dts) → grouped dts evs ≡ₚ evs.
Proof.
  intros Hnd Hdts.
  assert (grouped dts evs ≡ₚ filter (λ e, event_dt e ∈ dts) evs) as ->.
  { clear Hdts. induction Hnd as [|d dts Hd Hnd IH].
    - unfold grouped. simpl. induction evs as [|e evs IHe]; [done|].
      rewrite filter_cons_False; [done|]. apply not_elem_of_nil.
    - rewrite filter_dt_split by done. rewrite <-IH. done. }
  induction evs as [|e evs IH]; [done|].
  rewrite filter_cons_True by (apply Hdts; left).
  rewrite IH; [done|]. intros e' He'. apply Hdts. by right.
Qed.

(** ** The keys of the events *)

Section event_keys.
Context {O : SetOrder}.
Variable P : TEK → Prop.

Lemma add_loop_keys prev_dt inter st :
  NoDup inter →
  (∀ k, k ∈ inter → P k) →
  (∀ e, e ∈ events st → P (event_key e)) →
  ∀ e, e ∈ events (add_loop prev_dt inter st) → P (event_key e).
Proof.
  intros Hnd Hinter Hev e.
  destruct (add_loop_spec prev_dt inter st Hnd)
    as (_ & _ & _ & _ & _ & adds & -> & _ & Hkeys).
  intros [He|He]%elem_of_app; [by apply Hev|].
  assert (event_key e ∈ event_key <$> adds) as Hin by (by apply list_elem_of_fmap_2).
  rewrite Hkeys in Hin. apply list_elem_of_filter in Hin as [_ Hin]. by apply Hinter.
Qed.

Lemma process_archive_keys st a st' :
  Inv st →
  Forall P (load_keys a) →
  (∀ e, e ∈ events st → P (event_key e)) →
  (∀ k, k ∈ all_keys st → P k) →
  process_archive st a = Ok st' →
  (∀ e, e ∈ events st' → P (event_key e)) ∧ (∀ k, k ∈ all_keys st' → P k).
Proof.
  intros Hinv Ha Hev Hall Hrun. rewrite Forall_forall in Ha.
  destruct (prev st) as [[pk pdt]|] eqn:Hp.
  - destruct (process_archive_next_Ok st a pk pdt st' Hp (inv_added_when st Hinv) Hrun)
      as (adds & _ & _ & Hall' & _ & _ & Hev' & _ & Hkeys & _).
    assert (∀ k, k ∈ intersection (load_keys a) pk → P k) as Hinter.
    { intros k [Hk _]%intersection_elem_of. by apply Ha. }
    split.
    + intros e. rewrite Hev'. intros [He|[He|He]%elem_of_app]%elem_of_app.
      * by apply Hev.
      * assert (event_key e ∈ event_key <$> adds) as Hin
          by (by apply list_elem_of_fmap_2).
        rewrite Hkeys in Hin. apply list_elem_of_filter in Hin as [_ Hin].
        by apply Hinter.
      * apply list_elem_of_fmap in He as (k & -> & [Hk _]%departing_elem_of).
        rewrite departure_event_key. by apply Hall.
    + intros k. rewrite Hall', elem_of_list_to_set. apply Hinter.
  - rewrite process_archive_first in Hrun by done. by injection Hrun as <-.
Qed.

Lemma for_each_process_archive_keys st archives st' :
  Inv st →
  Forall (λ a, Forall P (load_keys a)) archives →
  (∀ e, e ∈ events st → P (event_key e)) →
  (∀ k, k ∈ all_keys st → P k) →
  for_each process_archive st archives = Ok st' →
  (∀ e, e ∈ events st' → P (event_key e)) ∧ (∀ k, k ∈ all_keys st' → P k).
Proof.
  intros Hinv Hok. revert st Hinv.
  induction Hok as [|a archives Ha Hok IH]; intros st Hinv Hev Hall Hrun.
  - simpl in Hrun. by injection Hrun as <-.
  - cbn [for_each] in Hrun.
    destruct (process_archive st a) as [st1|] eqn:Hstep; [|done].
    cbn [py_bind] in Hrun.
    destruct (Inv_process_archive st a st1 Hinv Hstep) as (Hinv1 & _).
    destruct (process_archive_keys st a st1 Hinv Ha Hev Hall Hstep) as [Hev1 Hall1].
    by apply (IH st1).
Qed.

(** The keys of the events of a run are keys of its archives. *)
Lemma extract_keys a archives last_archive st :
  Forall (λ a, Forall P (load_keys a)) (a :: archives) →
  extract (a :: archives) last_archive = Ok st →
  ∀ e, e ∈ events st → P (event_key e).
Proof.
  intros Hok. unfold extract.
  destruct (walk (a :: archives)) as [st0|] eqn:Hwalk; [|done]. cbn [py_bind].
  destruct (walk_ok _ _ Hwalk) as (Hinv & _ & Hprev).
  destruct (for_each_process_archive_keys init (a :: archives) st0 Inv_init Hok)
    as [Hev _]; [by intros e ?%elem_of_nil|set_solver|done|].
  unfold last_pass.
  destruct (last (a :: archives)) as [b|] eqn:Hlast; [|by apply last_None in Hlast].
  rewrite Hprev. simpl. intros [= <-].
  apply add_loop_keys; [apply intersection_NoDup| |done].
  intros k [_ Hk]%intersection_elem_of.
  apply last_Some_elem_of in Hlast.
  rewrite Forall_forall in Hok. specialize (Hok b Hlast).
  rewrite Forall_forall in Hok. by apply Hok.
Qed.
End event_keys.

(** When every key has a start that is a [datetime], the run reaches the
    report: the extraction and the sort return. *)
Lemma dump_reaches_report {O : SetOrder} a archives last_archive :
  archives_ok (a :: archives) →
  ∃ st evs,
    extract (a :: archives) last_archive = Ok st ∧
    sort_events (events st) = Ok evs.
Proof.
  intros Hok.
  destruct (extract (a :: archives) last_archive) as [st|e] eqn:Hrun.
  - exists st, (list_sort sort_key_of sort_key_ltb (events st)).
    split; [done|]. apply sort_events_representable, Forall_forall.
    by apply (extract_keys representable a archives last_archive).
  - by apply extract_Raise in Hrun as [_ []].
Qed.

(** * Main results *)

(** C1: the REVOKE/AUTO_REMOVE loop, run in a state whose keys all have a
    recorded add time.  When it returns, every key of [all_keys] that is not
    in [inter] has left [all_keys] and got exactly one event, dated [dt] and
    carrying the recorded add time: a [RevokedEvent] when
    [dt - key.dt <= timedelta(days=8)], and then the key has entered
    [revoked_keys]; an [AutoRemovedEvent] otherwise, and then its membership
    in [revoked_keys] has not changed.  An age of exactly 8 days revokes, one
    second more auto-removes.  The loop raises nothing but the [ValueError]
    of [key.dt], at such a key whose start [utcfromtimestamp] rejects; so it
    returns when there is no such key. *)
Theorem departure_classified_by_age {O : SetOrder} (dt : datetime) (inter : list TEK)
    (st : State) :
  all_keys st ⊆ dom (added_when st) →
  match depart_loop dt inter st with
  | Ok st' =>
      ∃ deps,
        events st' = events st ++ deps ∧
        ∀ key, key ∈ all_keys st → key ∉ inter →
          ∃ key_dt added_dt,
            TEK_dt key = Ok key_dt ∧
            added_when st !! key = Some added_dt ∧
            (key ∉ all_keys st') ∧
            (dt - key_dt ≤ timedelta_days 8 →
               RevokedEvent key dt added_dt ∈ deps ∧
               key ∈ revoked_keys st' ∧
               ∀ e, e ∈ deps → event_key e = key → e = RevokedEvent key dt added_dt) ∧
            (timedelta_days 8 < dt - key_dt →
               AutoRemovedEvent key dt added_dt ∈ deps ∧
               (key ∈ revoked_keys st' ↔ key ∈ revoked_keys st) ∧
               ∀ e, e ∈ deps → event_key e = key → e = AutoRemovedEvent key dt added_dt) ∧
            (dt - key_dt = 8 * 86400 → RevokedEvent key dt added_dt ∈ deps) ∧
            (dt - key_dt = 8 * 86400 + 1 → AutoRemovedEvent key dt added_dt ∈ deps)
  | Raise e =>
      e = ValueError ∧
      ∃ key, key ∈ all_keys st ∧ (key ∉ inter) ∧ TEK_dt key = Raise ValueError
  end.
Proof.
  intros Hdom.
  pose proof (depart_for_each_spec dt inter (set_iter (all_keys st)) st) as Hloop.
  unfold depart_loop.
  destruct (for_each (depart_key dt inter) st (set_iter (all_keys st)))
    as [st'|err] eqn:Hrun.
  - destruct Hloop as (Hrep & Hall & Hrev & _ & _ & _ & Hev).
    { apply set_iter_NoDup. }
    { intros k. by rewrite set_iter_elem_of. }
    { done. }
    exists (departure_event dt (added_when st) <$>
            filter (λ k, k ∉ inter) (set_iter (all_keys st))).
    split; [done|].
    intros key Hkey Hinter.
    assert (is_Some (added_when st !! key)) as [added_dt Ha]
      by (apply elem_of_dom; set_solver).
    assert (key ∈ filter (λ k, k ∉ inter) (set_iter (all_keys st))) as Hdep.
    { apply list_elem_of_filter. by rewrite set_iter_elem_of. }
    assert (representable key) as Hkr.
    { rewrite Forall_forall in Hrep. by apply Hrep. }
    assert (∀ e, e ∈ departure_event dt (added_when st) <$>
                   filter (λ k, k ∉ inter) (set_iter (all_keys st)) →
                 event_key e = key → e = departure_event dt (added_when st) key) as Honly.
    { intros e (k & -> & Hk)%list_elem_of_fmap. rewrite departure_event_key. by intros ->. }
    assert (departure_event dt (added_when st) key ∈
              departure_event dt (added_when st) <$>
                filter (λ k, k ∉ inter) (set_iter (all_keys st))) as Hin
      by (by apply list_elem_of_fmap_2).
    exists (start_time key), added_dt.
    split; [by apply TEK_dt_representable|]. split; [done|]. split.
    { rewrite Hall, elem_of_difference, elem_of_list_to_set. tauto. }
    unfold departure_event in Hin, Honly. rewrite Ha in Hin, Honly. simpl in Hin, Honly.
    unfold timedelta_days in *.
    assert (key ∈ revoked_keys st' ↔
            key ∈ revoked_keys st ∨ dt - start_time key ≤ 8 * 86400) as Hrevoked.
    { rewrite Hrev, elem_of_union, elem_of_list_to_set, list_elem_of_filter,
        set_iter_elem_of. tauto. }
    destruct (decide (dt - start_time key ≤ 8 * 86400)) as [Hage|Hage].
    + split; [|split; [|split]]; intros; try lia; try done.
      split; [done|]. split; [tauto|]. intros e He Hk. by apply Honly.
    + split; [|split; [|split]]; intros; try lia; try done.
      split; [done|]. split; [tauto|]. intros e He Hk. by apply Honly.
  - destruct Hloop as [-> Hrep].
    { apply set_iter_NoDup. }
    { intros k. by rewrite set_iter_elem_of. }
    { done. }
    split; [done|].
    apply not_Forall_Exists in Hrep; [|apply _].
    apply Exists_exists in Hrep as (key & [Hi Hk]%list_elem_of_filter & Hn).
    exists key. split; [by apply set_iter_elem_of|]. split; [done|].
    by apply TEK_dt_not_representable.
Qed.

Lemma departure_classified_by_age_witness :
  all_keys live_two ⊆ dom (added_when live_two) ∧
  ∃ st' deps,
    depart_loop (O := elements_order) (2650000 * 600 + 8 * 86400 + 1) [k_new] live_two
      = Ok st' ∧
    events st' = events live_two ++ deps ∧
    AutoRemovedEvent k_old (2650000 * 600 + 8 * 86400 + 1) 1590000000 ∈ deps.
Proof.
  assert (all_keys live_two ⊆ dom (added_when live_two)) as Hdom.
  { apply (bool_decide_unpack _). by vm_compute. }
  split; [exact Hdom|].
  pose proof (departure_classified_by_age (O := elements_order)
                (2650000 * 600 + 8 * 86400 + 1) [k_new] live_two Hdom) as Hloop.
  destruct (depart_loop (O := elements_order) (2650000 * 600 + 8 * 86400 + 1)
              [k_new] live_two) as [st'|err].
  - destruct Hloop as (deps & Hev & Hkeys).
    exists st', deps. split; [reflexivity|]. split; [exact Hev|].
    destruct (Hkeys k_old) as (key_dt & added_dt & Hk & Ha & _ & _ & _ & _ & Hauto).
    { apply (bool_decide_unpack _). by vm_compute. }
    { apply (bool_decide_unpack _). by vm_compute. }
    assert (added_dt = 1590000000) as <-.
    { vm_compute in Ha. by injection Ha. }
    assert (key_dt = 2650000 * 600) as ->.
    { vm_compute in Hk. by injection Hk. }
    apply Hauto. reflexivity.
  - exfalso. destruct Hloop as (_ & key & Hkey & _ & Hraise).
    apply elem_of_union in Hkey as [->%elem_of_singleton| ->%elem_of_singleton];
      vm_compute in Hraise; discriminate Hraise.
Defined.

(** C2: the flag of an ADD event says whether a key with the same data is
    in [all_keys] at that moment; [all_keys] loses the keys that departed.
    So key [key_1'], added after [key_1] (same data, other level) has been
    revoked, is not flagged, although [key_1] was added earlier in the
    run. *)
Theorem changed_ignores_departed_keys :
  (∀ (O : SetOrder) prev_dt st key,
     key ∉ all_keys st →
     ∃ changed,
       events (add_key prev_dt st key) =
         events st ++ [AddedEvent key prev_dt changed] ∧
       (changed = true ↔ ∃ o, o ∈ all_keys st ∧ data key = data o)) ∧
  py_map events
    (extract (O := elements_order)
       [mkArchive 1590000000 [key_1];
        mkArchive 1590086400 [key_1];
        mkArchive 1590172800 [key_1']]
       (mkArchive 1590172800 [key_1']))
  = Ok [AddedEvent key_1 1590000000 false;
        RevokedEvent key_1 1590172800 1590000000;
        AddedEvent key_1' 1590172800 false].
Proof.
  split.
  - intros O prev_dt st key. apply add_key_changed.
  - vm_compute. reflexivity.
Qed.

(** C3, as stated, fails: for two archives with the same time [dts] holds
    that time twice, and the single ADD event of K1 (level 5, never
    revoked) is tallied at both visits: the bucket and the headline are 2. *)
Lemma same_time_twice_report :
  py_map (λ st, (events st, elements (revoked_keys st)))
    (extract (O := elements_order) same_time_twice (mkArchive 1590000000 [K1]))
  = Ok ([AddedEvent K1 1590000000 false], []) ∧
  py_map (λ rep, (sorted_events rep, map_to_list (totals (lines rep)), diagnosed rep))
    (dump (O := elements_order) same_time_twice (mkArchive 1590000000 [K1]))
  = Ok ([AddedEvent K1 1590000000 false], [(2650000, 2)], 2).
Proof. split; vm_compute; reflexivity. Qed.

(** C3, amended: for archives with distinct times, in a run that reaches
    the report, the report's total for a start interval is the number of
    ADD events of keys with that start interval whose level is 5 and which
    have no REVOKE event anywhere in the run ([revoked_keys] holds exactly
    the keys with such an event).  When some event is counted the run ends
    normally and the number of its last line is the largest of these
    totals.  A start interval whose ADD events are those of K1 (level 5,
    not revoked), K2 (level 5, revoked) and K3 (level 2, not revoked) has
    total 1. *)
Theorem totals_count_unrevoked_level5 {O : SetOrder}
    (a : Archive) (archives : list Archive) (last_archive : Archive)
    (st : State) (evs : list Event) :
  NoDup (archive_dt <$> a :: archives) →
  extract (a :: archives) last_archive = Ok st →
  sort_events (events st) = Ok evs →
  ∃ r,
    for_each (report_dt (revoked_keys st) evs)
      {| diagnosed_at := []; totals := ∅ |} (dts st) = Ok r ∧
    (∀ k, k ∈ revoked_keys st ↔ ∃ t added_dt, RevokedEvent k t added_dt ∈ evs) ∧
    (∀ i, bucket (totals r) i =
          Z.of_nat (length (filter (λ e, counted (revoked_keys st) e ∧
                                         interval (event_key e) = i) evs))) ∧
    ((∃ e, e ∈ evs ∧ counted (revoked_keys st) e) →
     ∃ rep,
       dump (a :: archives) last_archive = Ok rep ∧
       sorted_events rep = evs ∧ lines rep = r ∧
       (∃ i, bucket (totals r) i = diagnosed rep) ∧
       ∀ i, bucket (totals r) i ≤ diagnosed rep) ∧
    (∀ i K1 K2 K3 t1 t2 t3 c1 c2 c3,
       filter (λ e, is_added e = true ∧ interval (event_key e) = i) evs ≡ₚ
         [AddedEvent K1 t1 c1; AddedEvent K2 t2 c2; AddedEvent K3 t3 c3] →
       level K1 = 5 → K1 ∉ revoked_keys st →
       level K2 = 5 → K2 ∈ revoked_keys st →
       level K3 = 2 → K3 ∉ revoked_keys st →
       bucket (totals r) i = 1).
Proof.
  intros Hnd Hrun Hsort.
  destruct (extract_ok a archives last_archive st Hrun) as (Hinv & Hdts).
  assert (evs ≡ₚ events st) as Hperm.
  { apply sort_events_Ok in Hsort as [_ ->]. apply list_sort_perm. }
  destruct (for_each_report_dt (revoked_keys st) evs
              {| diagnosed_at := []; totals := ∅ |} (dts st)) as (r & Hrep & Htot).
  assert (∀ i, bucket (totals r) i =
               Z.of_nat (length (counted_in (revoked_keys st) i evs))) as Hbucket.
  { intros i. rewrite Htot. unfold counted_in. rewrite grouped_perm; [done| |].
    - by rewrite Hdts.
    - intros e He. apply (inv_event_dt st Hinv). by rewrite <-Hperm. }
  exists r.
  split; [done|]. split; [|split; [done|split]].
  - intros k. rewrite (inv_revoked st Hinv). by setoid_rewrite Hperm.
  - intros (e & He & Hc).
    assert (1 ≤ bucket (totals r) (interval (event_key e))) as Hpos.
    { rewrite Hbucket. unfold counted_in.
      assert (e ∈ filter (λ e', counted (revoked_keys st) e' ∧
                interval (event_key e') = interval (event_key e)) evs) as Hin
        by (by apply list_elem_of_filter).
      destruct (filter _ evs); [by apply elem_of_nil in Hin|]. simpl. lia. }
    assert (totals r ≠ ∅) as Hne.
    { intros Hempty. rewrite Hempty in Hpos. unfold bucket in Hpos.
      rewrite lookup_empty in Hpos. simpl in Hpos. lia. }
    destruct (max_values_ok _ Hne) as [n Hn].
    destruct (max_values_spec _ _ Hn) as ((i0 & Hi0) & Hmax).
    eexists. unfold dump. rewrite Hrun. cbn [py_bind]. unfold report.
    rewrite Hsort. cbn [py_bind]. rewrite Hrep. cbn [py_bind]. rewrite Hn. cbn [py_bind].
    split; [done|]. cbn [sorted_events lines diagnosed].
    split; [done|]. split; [done|]. split.
    + exists i0. unfold bucket. by rewrite Hi0.
    + intros i. unfold bucket. destruct (totals r !! i) as [v|] eqn:Hi; simpl.
      * by eapply Hmax.
      * specialize (Hbucket i0). unfold bucket in Hbucket. rewrite Hi0 in Hbucket.
        simpl in Hbucket. lia.
  - intros i K1 K2 K3 t1 t2 t3 c1 c2 c3 Hgroup Hl1 Hr1 Hl2 Hr2 Hl3 Hr3.
    rewrite Hbucket. unfold counted_in.
    assert (filter (λ e, counted (revoked_keys st) e ∧ interval (event_key e) = i) evs =
            filter (counted (revoked_keys st))
              (filter (λ e, is_added e = true ∧ interval (event_key e) = i) evs)) as ->.
    { rewrite list_filter_filter. apply filter_ext_elem_of.
      intros e _. unfold counted. tauto. }
    rewrite Hgroup.
    rewrite filter_cons_True by (by unfold counted).
    rewrite filter_cons_False by (unfold counted; simpl; tauto).
    rewrite filter_cons_False by (unfold counted; simpl; lia).
    done.
Qed.

(** The run of the three keys: K2 is revoked, the total of their start
    interval is 1. *)
Example three_keys_report :
  py_map (λ rep, (sorted_events rep, map_to_list (totals (lines rep)), diagnosed rep))
    (dump (O := elements_order) three_keys (mkArchive 1590172800 [K1; K3]))
  = Ok ([AddedEvent K3 1590000000 false;
         AddedEvent K2 1590000000 false;
         AddedEvent K1 1590000000 false;
         RevokedEvent K2 1590172800 1590000000],
        [(2650000, 1)], 1).
Proof. vm_compute. reflexivity. Qed.

Lemma totals_count_unrevoked_level5_witness :
  NoDup [1590000000; 1590086400; 1590172800] ∧
  ∃ st evs r,
    extract (O := elements_order) three_keys (mkArchive 1590172800 [K1; K3]) = Ok st ∧
    sort_events (events st) = Ok evs ∧
    for_each (report_dt (revoked_keys st) evs)
      {| diagnosed_at := []; totals := ∅ |} (dts st) = Ok r ∧
    bucket (totals r) 2650000 =
      Z.of_nat (length (filter (λ e, counted (revoked_keys st) e ∧
                                     interval (event_key e) = 2650000) evs)).
Proof.
  assert (NoDup [1590000000; 1590086400; 1590172800]) as Hnd.
  { apply (bool_decide_unpack _). by vm_compute. }
  split; [exact Hnd|].
  destruct (dump_reaches_report (O := elements_order)
              (mkArchive 1590000000 [K1; K2; K3])
              [mkArchive 1590086400 [K1; K2; K3]; mkArchive 1590172800 [K1; K3]]
              (mkArchive 1590172800 [K1; K3]))
    as (st & evs & Hrun & Hsort).
  { apply (bool_decide_unpack _). by vm_compute. }
  destruct (totals_count_unrevoked_level5 (O := elements_order)
              (mkArchive 1590000000 [K1; K2; K3])
              [mkArchive 1590086400 [K1; K2; K3]; mkArchive 1590172800 [K1; K3]]
              (mkArchive 1590172800 [K1; K3]) st evs Hnd Hrun Hsort)
    as (r & Hrep & _ & Hbucket & _).
  exists st, evs, r. split; [exact Hrun|]. split; [exact Hsort|].
  split; [exact Hrep|]. apply Hbucket.
Defined.

(** Without any archive the final pass raises: [set(prev_keys)] is applied
    to [None]. *)
Lemma extract_no_archive {O : SetOrder} last_archive :
  extract [] last_archive = Raise TypeError.
Proof. done. Qed.

(** C4, as stated, fails: a single archive whose key is also in the 14d
    archive yields an ADD event. *)
Lemma single_archive_adds :
  py_map events
    (extract (O := elements_order)
       [mkArchive 1590000000 [key_1]] (mkArchive 1590000000 [key_1]))
  = Ok [AddedEvent key_1 1590000000 false].
Proof. vm_compute. reflexivity. Qed.

(** C4, amended: with a single archive the loop over the archives appends
    no event and nothing raises; the final pass appends one ADD event, dated
    with the time of that archive, for each key the archive shares with the
    14d archive, and no other event.  So there is no event exactly when the
    two archives share no key. *)
Theorem single_archive_events {O : SetOrder} (a last_archive : Archive) :
  ∃ st0 st,
    walk [a] = Ok st0 ∧
    events st0 = [] ∧
    extract [a] last_archive = Ok st ∧
    Forall (λ e, is_added e = true ∧ event_dt e = archive_dt a) (events st) ∧
    event_key <$> events st = intersection (load_keys last_archive) (load_keys a) ∧
    (events st = [] ↔ ∀ k, k ∈ load_keys a → k ∉ load_keys last_archive).
Proof.
  set (st0 := set_prev (load_keys a) (archive_dt a) (dts_append (archive_dt a) init)).
  set (inter := intersection (load_keys last_archive) (load_keys a)).
  exists st0, (add_loop (archive_dt a) inter st0).
  split; [done|]. split; [done|]. split; [done|].
  destruct (add_loop_spec (archive_dt a) inter st0)
    as (_ & _ & _ & _ & _ & adds & Hev & Hadds & Hkeys).
  { apply intersection_NoDup. }
  simpl in Hev, Hkeys. rewrite Hev.
  assert (event_key <$> adds = inter) as Hinter.
  { rewrite Hkeys. clear. induction inter as [|k l IH]; [done|].
    rewrite filter_cons_True by set_solver. by rewrite IH. }
  split; [done|]. split; [done|]. split.
  - intros ->. simpl in Hinter. intros k Ha Hlast.
    assert (k ∈ inter) as Hk by (by apply intersection_elem_of).
    rewrite <-Hinter in Hk. by apply elem_of_nil in Hk.
  - intros Hdisj. destruct adds as [|e adds]; [done|].
    assert (event_key e ∈ inter) as [Hlast Ha]%intersection_elem_of
      by (rewrite <-Hinter; left).
    by destruct (Hdisj _ Ha).
Qed.

(** C5: when no ADD event of the run is counted (level 5, key never
    revoked), the loop over [dts] ends normally, with every per-archive
    "people diagnosed" line left out by its guard and with empty totals, and
    the last statement of the run raises [ValueError]: [max] is applied to
    the empty totals, so no count of zero is reported.  (The sort before
    the loop raises nothing but the [ValueError] of a key whose start is not
    a [datetime].) *)
Theorem no_counted_event_raises {O : SetOrder}
    (archives : list Archive) (last_archive : Archive) (st : State) :
  extract archives last_archive = Ok st →
  (∀ e, e ∈ events st → ¬ counted (revoked_keys st) e) →
  match sort_events (events st) with
  | Ok evs =>
      ∃ r,
        for_each (report_dt (revoked_keys st) evs)
          {| diagnosed_at := []; totals := ∅ |} (dts st) = Ok r ∧
        totals r = ∅ ∧
        Forall (λ line, line.2 = None) (diagnosed_at r)
  | Raise e =>
      e = ValueError ∧ ¬ Forall (λ e, representable (event_key e)) (events st)
  end ∧
  dump archives last_archive = Raise ValueError.
Proof.
  intros Hrun Hnone.
  unfold dump. rewrite Hrun. cbn [py_bind]. unfold report.
  destruct (sort_events (events st)) as [evs|err] eqn:Hsort; cycle 1.
  { apply sort_events_Raise in Hsort as [-> Hn]. by split. }
  assert (∀ e, e ∈ evs → ¬ counted (revoked_keys st) e) as Hnone'.
  { intros e He. apply Hnone. by apply (sort_events_elem_of (events st) evs). }
  assert (∀ c l, (∀ e, e ∈ l → e ∈ evs) → foldl (count_event (revoked_keys st)) c l = c)
    as Hfold.
  { intros c l. revert c. induction l as [|e l IH]; intros c Hl; [done|]. simpl.
    rewrite count_event_uncounted by (apply Hnone', Hl; left).
    apply IH. intros e' He'. apply Hl. by right. }
  assert (∀ ds r, totals r = ∅ → Forall (λ line, line.2 = None) (diagnosed_at r) →
            ∃ r', for_each (report_dt (revoked_keys st) evs) r ds = Ok r' ∧
                  totals r' = ∅ ∧ Forall (λ line, line.2 = None) (diagnosed_at r'))
    as Hloop.
  { intros ds. induction ds as [|dt ds IH]; intros r Hr Hlines; [by exists r|].
    cbn [for_each]. unfold report_dt at 1. cbv zeta.
    rewrite Hfold by (intros e [_ He]%list_elem_of_filter; done).
    cbn [days_count tot_days_count]. rewrite decide_True by done. cbn [py_bind].
    apply IH; simpl; [done|]. apply Forall_app. split; [done|]. by repeat constructor. }
  destruct (Hloop (dts st) {| diagnosed_at := []; totals := ∅ |}) as (r & Hrep & Hr & Hl);
    [done|constructor|].
  split; [by exists r|].
  cbn [py_bind]. rewrite Hrep. cbn [py_bind]. rewrite Hr. done.
Qed.

Lemma no_counted_event_raises_witness :
  dump (O := elements_order) level2_only (mkArchive 1590086400 [K3])
  = Raise ValueError.
Proof.
  eapply (no_counted_event_raises (O := elements_order) level2_only
            (mkArchive 1590086400 [K3])
            (add_loop (O := elements_order) 1590086400 [K3]
               (set_prev [K3] 1590086400
                  (add_loop (O := elements_order) 1590000000 [K3]
                     (dts_append 1590086400
                        (set_prev [K3] 1590000000 (dts_append 1590000000 init))))))).
  - vm_compute. reflexivity.
  - intros e He. vm_compute in He.
    apply list_elem_of_singleton in He as ->.
    intros (_ & Hlevel & _). discriminate Hlevel.
Defined.

(** C6: in the order in which the extractor appends them, two ADD events of
    the same key always have a REVOKE or AUTO REMOVE event of that key
    between them; this holds after the loop over the archives and after the
    final pass (which raise nothing, once there is an archive, but the
    [ValueError] of a key whose start is not a [datetime]). *)
Theorem one_add_per_live_interval {O : SetOrder} :
  (∀ archives,
     gives archives (walk archives) (λ st, one_live_interval (events st))) ∧
  (∀ a archives last_archive,
     gives (a :: archives) (extract (a :: archives) last_archive)
       (λ st, one_live_interval (events st))).
Proof.
  split.
  - intros archives. apply walk_gives. intros st (Hinv & _)%walk_ok.
    apply (replay_one_live_interval ∅). by rewrite (inv_replay st Hinv).
  - intros a archives last_archive. apply extract_gives.
    intros st (Hinv & _)%extract_ok.
    apply (replay_one_live_interval ∅). by rewrite (inv_replay st Hinv).
Qed.

(** C7: the key list of a transition is the set intersection of the two
    key lists, without repetition.  When the earlier archive holds the real
    keys [R1] and padding [P1], the later one [R2] and [P2], and a padding
    key occurs in neither the other padding nor the real keys, the
    intersection holds exactly the keys common to [R1] and [R2].  An empty
    archive gives the empty list, and a transition works on this list. *)
Theorem intersection_rejects_padding {O : SetOrder}
    (R1 P1 R2 P2 prev_keys now_keys : list TEK) :
  (∀ k, k ∈ prev_keys ↔ k ∈ R1 ∨ k ∈ P1) →
  (∀ k, k ∈ now_keys ↔ k ∈ R2 ∨ k ∈ P2) →
  (∀ k, k ∈ P1 → (k ∉ P2) ∧ (k ∉ R1) ∧ (k ∉ R2)) →
  (∀ k, k ∈ P2 → (k ∉ P1) ∧ (k ∉ R1) ∧ (k ∉ R2)) →
  (∀ k, k ∈ intersection now_keys prev_keys ↔ k ∈ now_keys ∧ k ∈ prev_keys) ∧
  (∀ k, k ∈ intersection now_keys prev_keys ↔ k ∈ R1 ∧ k ∈ R2) ∧
  NoDup (intersection now_keys prev_keys) ∧
  intersection [] prev_keys = [] ∧
  intersection now_keys [] = [] ∧
  (∀ st a prev_dt,
     prev st = Some (prev_keys, prev_dt) → load_keys a = now_keys →
     process_archive st a =
       let inter := intersection now_keys prev_keys in
       let* st' := depart_loop (archive_dt a) inter
                     (add_loop prev_dt inter (dts_append (archive_dt a) st)) in
       Ok (set_prev now_keys (archive_dt a) st')) ∧
  (∀ st last_archive prev_dt,
     prev st = Some (prev_keys, prev_dt) → load_keys last_archive = now_keys →
     last_pass last_archive st =
       Ok (add_loop prev_dt (intersection now_keys prev_keys) st)).
Proof.
  intros Hprev Hnow HP1 HP2.
  assert (∀ l, NoDup l → (∀ k : TEK, k ∉ l) → l = []) as Hnil.
  { intros [|k l] _ Hl; [done|]. destruct (Hl k). by left. }
  split; [|split; [|split; [|split; [|split; [|split]]]]].
  - intros k. apply intersection_elem_of.
  - intros k. rewrite intersection_elem_of, Hprev, Hnow. split; [|tauto].
    intros [[?|H2] [?|H1]]; try tauto.
    + destruct (HP1 k H1). tauto.
    + destruct (HP2 k H2). tauto.
    + destruct (HP2 k H2). tauto.
  - apply intersection_NoDup.
  - apply Hnil; [apply intersection_NoDup|].
    intros k [H _]%intersection_elem_of. by apply elem_of_nil in H.
  - apply Hnil; [apply intersection_NoDup|].
    intros k [_ H]%intersection_elem_of. by apply elem_of_nil in H.
  - intros st a prev_dt Hp <-. unfold process_archive. simpl. by rewrite Hp.
  - intros st last_archive prev_dt Hp <-. unfold last_pass. by rewrite Hp.
Qed.

Lemma intersection_rejects_padding_witness :
  real_b ∈ intersection (O := elements_order)
             [real_b; pad_2; real_c] [real_a; real_b; pad_1] ∧
  (pad_1 ∉ intersection (O := elements_order)
             [real_b; pad_2; real_c] [real_a; real_b; pad_1]) ∧
  (pad_2 ∉ intersection (O := elements_order)
             [real_b; pad_2; real_c] [real_a; real_b; pad_1]).
Proof.
  destruct (intersection_rejects_padding (O := elements_order)
              [real_a; real_b] [pad_1] [real_b; real_c] [pad_2]
              [real_a; real_b; pad_1] [real_b; pad_2; real_c])
    as (_ & Hreal & _).
  - intros k. rewrite !elem_of_cons, !elem_of_nil. tauto.
  - intros k. rewrite !elem_of_cons, !elem_of_nil. tauto.
  - intros k ->%list_elem_of_singleton.
    split; [|split]; apply (bool_decide_unpack _); by vm_compute.
  - intros k ->%list_elem_of_singleton.
    split; [|split]; apply (bool_decide_unpack _); by vm_compute.
  - rewrite !Hreal. split; [|split].
    + split; apply (bool_decide_unpack _); by vm_compute.
    + intros [H _]. revert H. apply (bool_decide_unpack _). by vm_compute.
    + intros [H _]. revert H. apply (bool_decide_unpack _). by vm_compute.
Defined.

(** C8: at every transition of a walk the events appended are the ADD
    events of the transition followed by its departures, and no key has an
    event in both groups. *)
Theorem adds_before_departures {O : SetOrder} (archives : list Archive) (a : Archive) :
  gives (archives ++ [a]) (walk (archives ++ [a])) (λ st',
    ∃ st adds deps,
      walk archives = Ok st ∧
      process_archive st a = Ok st' ∧
      events st' = events st ++ adds ++ deps ∧
      Forall (λ e, is_added e = true) adds ∧
      Forall (λ e, is_departure e = true) deps ∧
      ∀ e1 e2, e1 ∈ adds → e2 ∈ deps → event_key e1 ≠ event_key e2).
Proof.
  apply walk_gives. intros st' Hrun'. rewrite walk_snoc in Hrun'.
  destruct (walk archives) as [st|] eqn:Hrun; [|done]. cbn [py_bind] in Hrun'.
  destruct (walk_ok _ _ Hrun) as (Hinv & _ & _).
  exists st.
  destruct (prev st) as [[pk pdt]|] eqn:Hp.
  - destruct (process_archive_next_Ok st a pk pdt st' Hp (inv_added_when st Hinv) Hrun')
      as (adds & _ & _ & _ & _ & _ & Hev & Hadds & Hkeys & _).
    exists adds, (departure_event (archive_dt a) (added_when st) <$>
                  departing st (intersection (load_keys a) pk)).
    do 3 (split; [done|]). split; [|split].
    + eapply Forall_impl; [done|]. by intros e [? _].
    + apply Forall_fmap, Forall_true. intros k. apply departure_event_is_departure.
    + intros e1 e2 H1 (k & -> & Hk%departing_elem_of)%list_elem_of_fmap.
      rewrite departure_event_key. intros Heq.
      assert (event_key e1 ∈ event_key <$> adds) as Hin by (by apply list_elem_of_fmap_2).
      rewrite Hkeys, list_elem_of_filter, Heq in Hin. tauto.
  - exists [], []. rewrite process_archive_first in Hrun' by done.
    injection Hrun' as <-. split; [done|].
    split; [by apply process_archive_first|]. split; [by rewrite app_nil_r|].
    split; [constructor|]. split; [constructor|].
    intros e1 e2 H1. by apply elem_of_nil in H1.
Qed.

(** C9: when the sort of the events returns, the sorted list is a
    rearrangement of the events in which no event stands before one with a
    smaller key, where keys compare by the event time first, then by the
    text of [str(type(e))], then by the level of the key, then by the start
    time of the key.  With equal times an [AddedEvent] is smaller than an
    [AutoRemovedEvent], so it is never found behind one in the sorted list.
    The sort raises nothing but the [ValueError] of an event whose key has a
    start that is not a [datetime]. *)
Theorem events_sorted_by_key (evs : list Event) :
  match sort_events evs with
  | Ok sorted =>
      sorted ≡ₚ evs ∧
      Forall (λ e, event_sort_key e = Ok (sort_key_of e)) sorted ∧
      StronglySorted (λ e1 e2, event_ltb e2 e1 = false) sorted ∧
      (∀ l1 l2 k1 k2 t c a,
         sorted = l1 ++ AutoRemovedEvent k2 t a :: l2 →
         AddedEvent k1 t c ∉ l2)
  | Raise err =>
      err = ValueError ∧ ∃ e, e ∈ evs ∧ TEK_dt (event_key e) = Raise ValueError
  end ∧
  (∀ e1 e2,
     event_ltb e1 e2 = true ↔
       event_dt e1 < event_dt e2 ∨ event_dt e1 = event_dt e2 ∧
       (String.ltb (type_str e1) (type_str e2) = true ∨ type_str e1 = type_str e2 ∧
        (level (event_key e1) < level (event_key e2) ∨
         level (event_key e1) = level (event_key e2) ∧
         start_time (event_key e1) < start_time (event_key e2)))) ∧
  (∀ k1 k2 t c a,
     event_ltb (AddedEvent k1 t c) (AutoRemovedEvent k2 t a) = true).
Proof.
  assert (∀ k1 k2 t c a,
            event_ltb (AddedEvent k1 t c) (AutoRemovedEvent k2 t a) = true) as Hlt.
  { intros. apply event_ltb_rank. simpl. lia. }
  split; [|split; [|done]].
  - destruct (sort_events evs) as [sorted|err] eqn:Hsort.
    + apply sort_events_Ok in Hsort as [Hrep ->].
      assert (StronglySorted (λ e1 e2, event_ltb e2 e1 = false)
                (list_sort sort_key_of sort_key_ltb evs)) as Hsorted.
      { apply (list_sort_sorted sort_key_of sort_key_ltb).
        - apply event_ltb_asym.
        - apply event_not_after_trans. }
      split; [apply list_sort_perm|]. split; [|split; [done|]].
      * rewrite list_sort_perm. eapply Forall_impl; [exact Hrep|].
        intros e He. by apply event_sort_key_representable.
      * intros l1 l2 k1 k2 t c a Heq Hin. rewrite Heq in Hsorted.
        apply StronglySorted_app_1_r, StronglySorted_cons in Hsorted as [Hall _].
        rewrite Forall_forall in Hall. apply Hall in Hin.
        by rewrite Hlt in Hin.
    + apply sort_events_Raise in Hsort as [-> Hn]. split; [done|].
      apply not_Forall_Exists in Hn; [|apply _].
      apply Exists_exists in Hn as (e & He & Hr). exists e. split; [done|].
      by apply TEK_dt_not_representable.
  - intros e1 e2. rewrite event_ltb_rank, type_str_ltb, Z.ltb_lt.
    assert (type_str e1 = type_str e2 ↔ type_rank e1 = type_rank e2) as ->
      by (by destruct e1, e2).
    done.
Qed.

(** C10: a key is recorded in [added_when] no later than it enters
    [all_keys]: both loop bodies keep [all_keys] inside the keys of
    [added_when], the lookup [added_when[key]] of the departure loop is
    defined for every key of [all_keys], and neither the loop over the
    archives nor the final pass raises for this reason: what they raise,
    once there is an archive, is nothing but the [ValueError] of [key.dt]
    for a key whose start is not a [datetime]. *)
Theorem added_when_defined_on_all_keys {O : SetOrder} :
  (∀ prev_dt st key,
     all_keys st ⊆ dom (added_when st) →
     all_keys (add_key prev_dt st key) ⊆ dom (added_when (add_key prev_dt st key))) ∧
  (∀ dt inter st key,
     all_keys st ⊆ dom (added_when st) → key ∈ all_keys st →
     (∃ t, added_when_get st key = Ok t) ∧
     match depart_key dt inter st key with
     | Ok st' => all_keys st' ⊆ dom (added_when st')
     | Raise e => e = ValueError ∧ TEK_dt key = Raise ValueError
     end) ∧
  (∀ archives,
     gives archives (walk archives) (λ st, all_keys st ⊆ dom (added_when st))) ∧
  (∀ a archives last_archive,
     gives (a :: archives) (extract (a :: archives) last_archive)
       (λ st, all_keys st ⊆ dom (added_when st))).
Proof.
  split; [|split; [|split]].
  - intros prev_dt st key Hdom. unfold add_key. case_decide; [done|]. simpl.
    rewrite dom_insert_L. set_solver.
  - intros dt inter st key Hdom Hkey.
    assert (is_Some (added_when st !! key)) as [t Ht] by (apply elem_of_dom; set_solver).
    unfold added_when_get. rewrite Ht. split; [by exists t|].
    unfold depart_key, added_when_get, all_keys_remove. rewrite Ht.
    case_decide; [done|].
    destruct (TEK_dt key) as [key_dt|e] eqn:Hdt; cbn [py_bind].
    + case_decide; cbn [py_bind all_keys emit revoke]; rewrite decide_True by done;
        simpl; set_solver.
    + by apply TEK_dt_Raise in Hdt as [-> ?%TEK_dt_not_representable].
  - intros archives. apply walk_gives. intros st (Hinv & _)%walk_ok.
    apply (inv_added_when st Hinv).
  - intros a archives last_archive. apply extract_gives.
    intros st (Hinv & _)%extract_ok. apply (inv_added_when st Hinv).
Qed.

(** * Further properties of the walk *)

Lemma app_eq_middle {A} (l m l1 l2 : list A) (x : A) :
  l ++ m = l1 ++ x :: l2 →
  (∃ l2', l = l1 ++ x :: l2' ∧ l2 = l2' ++ m) ∨
  (∃ l1', l1 = l ++ l1' ∧ m = l1' ++ x :: l2).
Proof.
  revert l1. induction l as [|y l IH]; intros l1 Heq; simpl in *.
  - right. by exists l1.
  - destruct l1 as [|z l1]; simpl in *; simplify_eq.
    + left. by exists l.
    + destruct (IH _ H0) as [(l2' & -> & ->)|(l1' & -> & ->)].
      * left. by exists l2'.
      * right. by exists l1'.
Qed.

Lemma Trace_init : Trace init.
Proof.
  split; simpl.
  - intros k a H. by rewrite lookup_empty in H.
  - intros [|??] ??? H; done.
  - intros _ e a H. by apply elem_of_nil in H.
  - intros e H. by apply elem_of_nil in H.
  - intros e H. by apply elem_of_nil in H.
Qed.

Lemma adds_elem_of (adds : list Event) (t : datetime) (k : TEK) :
  Forall (λ e, is_added e = true ∧ event_dt e = t) adds →
  k ∈ event_key <$> adds → ∃ c, AddedEvent k t c ∈ adds.
Proof.
  intros Hadds (e & -> & He)%list_elem_of_fmap.
  rewrite Forall_forall in Hadds. destruct (Hadds _ He) as [Ha Ht].
  destruct e; try done. simpl in *. subst. eauto.
Qed.

Lemma adds_no_added_dt (adds : list Event) (t : datetime) e :
  Forall (λ e, is_added e = true ∧ event_dt e = t) adds →
  e ∈ adds → event_added_dt e = None ∧ is_departure e = false.
Proof.
  intros Hadds He. rewrite Forall_forall in Hadds.
  destruct (Hadds _ He) as [Ha _]. by destruct e.
Qed.

Section trace.
Context {O : SetOrder}.

Lemma Trace_add_loop prev_dt inter st :
  NoDup inter → prev_dt ∈ dts st → Trace st → Trace (add_loop prev_dt inter st).
Proof.
  intros Hnd Hdt [Haw Hdep Hdelay Hage Hddt].
  destruct (add_loop_spec prev_dt inter st Hnd)
    as (_ & _ & _ & Hdts1 & Haw1 & adds & Hev & Hadds & Hkeys).
  split.
  - intros k a. rewrite Haw1, Hdts1, Hev. case_decide as Hk.
    + intros [= <-]. split; [done|].
      destruct (adds_elem_of adds prev_dt k Hadds) as [c Hc].
      { rewrite Hkeys, list_elem_of_filter. tauto. }
      exists c. apply elem_of_app. by right.
    + intros Hl. destruct (Haw _ _ Hl) as [? [c Hc]]. split; [done|].
      exists c. apply elem_of_app. by left.
  - intros l1 e l2 a. rewrite Hev. intros Heq Ha.
    apply app_eq_middle in Heq as [(l2' & Heq & _)|(l1' & _ & Heq)].
    + by eapply Hdep.
    + assert (e ∈ adds) as He by (rewrite Heq; apply elem_of_app; right; left).
      destruct (adds_no_added_dt adds prev_dt e Hadds He) as [Hn _]. congruence.
  - rewrite Hdts1, Hev. intros Hs e a [He|He]%elem_of_app Ha.
    + by eapply Hdelay.
    + destruct (adds_no_added_dt adds prev_dt e Hadds He) as [Hn _]. congruence.
  - intros e. rewrite Hev. intros [He|He]%elem_of_app; [by apply Hage|].
    destruct (adds_no_added_dt adds prev_dt e Hadds He) as [_ Hn]. by destruct e.
  - intros e. rewrite Hev, Hdts1. intros [He|He]%elem_of_app Hd; [by apply Hddt|].
    destruct (adds_no_added_dt adds prev_dt e Hadds He) as [_ Hn]. congruence.
Qed.

Lemma Trace_process_archive st a st' :
  Inv st → Trace st → process_archive st a = Ok st' → Trace st'.
Proof.
  intros Hinv [Haw Hdep Hdelay Hage Hddt] Hrun.
  destruct (prev st) as [[pk pdt]|] eqn:Hp.
  - destruct (process_archive_next_Ok st a pk pdt st' Hp (inv_added_when st Hinv) Hrun)
      as (adds & _ & Hdts & Hall & _ & Haw1 & Hev & Hadds & Hkeys & Hrep).
    set (inter := intersection (load_keys a) pk) in *.
    set (dt := archive_dt a) in *.
    assert (pdt ∈ dts st) as Hpdt by (by eapply (inv_prev_dt st Hinv)).
    assert (∀ e, e ∈ departure_event dt (added_when st) <$> departing st inter →
              representable (event_key e)) as Hdeps_rep.
    { intros e (k & -> & Hk)%list_elem_of_fmap. rewrite departure_event_key.
      rewrite Forall_forall in Hrep. by apply Hrep. }
    assert (∀ e, e ∈ departure_event dt (added_when st) <$> departing st inter →
              ∃ k t, k ∈ all_keys st ∧ added_when st !! k = Some t ∧
                     e = departure_event dt (added_when st) k ∧
                     event_added_dt e = Some t ∧ event_key e = k ∧ event_dt e = dt)
      as Hdeps.
    { intros e (k & -> & [Hk _]%departing_elem_of)%list_elem_of_fmap.
      assert (is_Some (added_when st !! k)) as [t Ht]
        by (apply elem_of_dom, (inv_added_when st Hinv), Hk).
      exists k, t. rewrite departure_event_key, departure_event_dt.
      split; [done|]. split; [done|]. split; [done|]. split; [|done].
      unfold departure_event. rewrite Ht. by case_decide. }
    split.
    + intros k t. rewrite Haw1, Hdts, Hev. case_decide as Hk.
      * intros [= <-]. split; [apply elem_of_app; by left|].
        destruct (adds_elem_of adds pdt k Hadds) as [c Hc].
        { rewrite Hkeys, list_elem_of_filter. tauto. }
        exists c. rewrite !elem_of_app. right. by left.
      * intros Hl. destruct (Haw _ _ Hl) as [? [c Hc]].
        split; [apply elem_of_app; by left|].
        exists c. apply elem_of_app. by left.
    + intros l1 e l2 t. rewrite Hev. intros Heq Ht.
      apply app_eq_middle in Heq as [(l2' & Heq & _)|(l1' & -> & Heq)].
      { by eapply Hdep. }
      apply app_eq_middle in Heq as [(l2' & Heq & _)|(l1'' & -> & Heq)].
      { assert (e ∈ adds) as He by (rewrite Heq; apply elem_of_app; right; left).
        destruct (adds_no_added_dt adds pdt e Hadds He) as [Hn _]. congruence. }
      destruct (Hdeps e) as (k & t' & Hk & Hl & _ & Ht' & Hkey & _).
      { rewrite Heq. apply elem_of_app. right. left. }
      rewrite Ht in Ht'. injection Ht' as <-. rewrite Hkey.
      destruct (Haw _ _ Hl) as [_ [c Hc]]. exists c. apply elem_of_app. by left.
    + rewrite Hdts, Hev. intros Hs e t [He|[He|He]%elem_of_app]%elem_of_app Ht.
      * eapply Hdelay; [|done..]. by eapply StronglySorted_app_1_l.
      * destruct (adds_no_added_dt adds pdt e Hadds He) as [Hn _]. congruence.
      * destruct (Hdeps e He) as (k & t' & Hk & Hl & _ & Ht' & _ & ->).
        rewrite Ht in Ht'. injection Ht' as <-.
        destruct (Haw _ _ Hl) as [Hin _].
        eapply (StronglySorted_app_1_elem_of _ (dts st) [dt]); [done..|left].
    + intros e. rewrite Hev. intros [He|[He|He]%elem_of_app]%elem_of_app.
      * by apply Hage.
      * destruct (adds_no_added_dt adds pdt e Hadds He) as [_ Hn]. by destruct e.
      * pose proof (Hdeps_rep e He) as Hr.
        destruct (Hdeps e He) as (k & t' & _ & _ & -> & _).
        rewrite departure_event_key in Hr.
        unfold departure_event. case_decide; simpl; (split; [done|]); [done|lia].
    + intros e. rewrite Hev, Hdts.
      assert (∀ x, x ∈ tail (dts st) ∨ x = dt → x ∈ tail (dts st ++ [dt])) as Htail.
      { intros x. destruct (dts st) as [|y l]; [by apply elem_of_nil in Hpdt|]. simpl.
        rewrite elem_of_app, list_elem_of_singleton. tauto. }
      intros [He|[He|He]%elem_of_app]%elem_of_app Hd.
      * apply Htail. left. by apply Hddt.
      * destruct (adds_no_added_dt adds pdt e Hadds He) as [_ Hn]. congruence.
      * destruct (Hdeps e He) as (k & t' & _ & _ & _ & _ & _ & ->).
        apply Htail. by right.
  - rewrite process_archive_first in Hrun by done. injection Hrun as <-.
    split; simpl.
    + intros k t Hl. destruct (Haw _ _ Hl) as [? ?]. split; [|done].
      apply elem_of_app. by left.
    + done.
    + intros Hs. apply Hdelay. by eapply StronglySorted_app_1_l.
    + done.
    + intros e He Hd. specialize (Hddt e He Hd).
      destruct (dts st) as [|y l]; [by apply elem_of_nil in Hddt|]. simpl in *.
      apply elem_of_app. by left.
Qed.

Lemma for_each_process_archive_trace st archives st' :
  Inv st → Trace st → for_each process_archive st archives = Ok st' → Trace st'.
Proof.
  revert st. induction archives as [|a archives IH]; intros st Hinv Htr Hrun.
  - simpl in Hrun. by injection Hrun as <-.
  - cbn [for_each] in Hrun.
    destruct (process_archive st a) as [st1|] eqn:Hrun1; [|done].
    cbn [py_bind] in Hrun.
    destruct (Inv_process_archive st a st1 Hinv Hrun1) as (Hinv1 & _).
    apply (IH st1); [done| |done].
    by apply (Trace_process_archive st a st1).
Qed.

Lemma walk_trace archives st :
  walk archives = Ok st →
  Inv st ∧ Trace st ∧
  dts st = archive_dt <$> archives ∧
  prev st = (λ a, (load_keys a, archive_dt a)) <$> last archives.
Proof.
  intros Hrun. destruct (walk_ok archives st Hrun) as (Hinv & Hdts & Hprev).
  split; [done|]. split; [|done].
  by eapply (for_each_process_archive_trace init archives), Hrun;
    [apply Inv_init|apply Trace_init].
Qed.

Lemma extract_trace a archives last_archive st :
  extract (a :: archives) last_archive = Ok st →
  Inv st ∧ Trace st ∧ dts st = archive_dt <$> a :: archives.
Proof.
  unfold extract. destruct (walk (a :: archives)) as [st0|] eqn:Hwalk; [|done].
  cbn [py_bind]. destruct (walk_trace _ _ Hwalk) as (Hinv & Htr & Hdts & Hprev).
  unfold last_pass.
  destruct (last (a :: archives)) as [b|] eqn:Hlast; [|by apply last_None in Hlast].
  rewrite Hprev. simpl. intros [= <-].
  assert (archive_dt b ∈ dts st0) as Hb
    by (by apply (inv_prev_dt st0 Hinv (load_keys b))).
  split; [|split].
  - apply Inv_add_loop; [apply intersection_NoDup|done..].
  - apply Trace_add_loop; [apply intersection_NoDup|done..].
  - destruct (add_loop_spec (archive_dt b)
                (intersection (load_keys last_archive) (load_keys b)) st0)
      as (_ & _ & _ & -> & _); [apply intersection_NoDup|done].
Qed.
End trace.

Lemma StronglySorted_filter {A} (R : relation A) (P : A → Prop)
    `{!∀ x, Decision (P x)} (l : list A) :
  StronglySorted R l → StronglySorted R (filter P l).
Proof.
  induction 1 as [|x l Hl IH Hx]; [constructor|].
  rewrite filter_cons. case_decide; [|done].
  constructor; [done|]. rewrite Forall_forall in *.
  intros y [_ Hy]%list_elem_of_filter. by apply Hx.
Qed.

Lemma StronglySorted_fmap_inv {A B} (f : A → B) (R : relation B) (l : list A) :
  StronglySorted R (f <$> l) → StronglySorted (λ x y, R (f x) (f y)) l.
Proof.
  induction l as [|x l IH]; [constructor|]. rewrite fmap_cons.
  intros [Hx Hl]%StronglySorted_cons. constructor; [by apply IH|].
  by rewrite Forall_fmap in Hx.
Qed.

Section walk_facts.
Context {O : SetOrder}.

Lemma intersection_sorted now_keys prev_keys :
  StronglySorted (λ k1 k2, inter_sort_key k1 ≤ inter_sort_key k2)
    (intersection now_keys prev_keys).
Proof.
  unfold intersection.
  eapply (StronglySorted_fmap_inv id (λ k1 k2, inter_sort_key k1 ≤ inter_sort_key k2)).
  rewrite list_fmap_id.
  assert (∀ l, StronglySorted (not_after inter_sort_key Z.ltb) l →
            StronglySorted (λ k1 k2, inter_sort_key k1 ≤ inter_sort_key k2) l) as Himpl.
  { induction 1 as [|x l Hl IH Hx]; constructor; [done|].
    eapply Forall_impl; [done|]. unfold not_after. intros y Hy%Z.ltb_ge. done. }
  apply Himpl, (list_sort_sorted inter_sort_key Z.ltb).
  - intros a b Hab%Z.ltb_lt. apply Z.ltb_ge. lia.
  - unfold not_after. intros a b c Hab%Z.ltb_ge Hbc%Z.ltb_ge. apply Z.ltb_ge. lia.
Qed.

(** What one more archive appends to a walk. *)
Lemma walk_step archives a st' :
  walk (archives ++ [a]) = Ok st' →
  ∃ st adds deps,
    walk archives = Ok st ∧
    Inv st ∧ Inv st' ∧
    events st' = events st ++ adds ++ deps ∧
    Forall (λ e, is_added e = true) adds ∧
    Forall (λ e, is_departure e = true) deps ∧
    NoDup (event_key <$> adds) ∧ NoDup (event_key <$> deps) ∧
    (∀ k, k ∈ event_key <$> adds ↔ k ∈ all_keys st' ∧ k ∉ all_keys st) ∧
    (∀ k, k ∈ event_key <$> deps ↔ k ∈ all_keys st ∧ k ∉ all_keys st') ∧
    StronglySorted (λ e1 e2, inter_sort_key (event_key e1) ≤ inter_sort_key (event_key e2))
      adds.
Proof.
  rewrite walk_snoc. destruct (walk archives) as [st|] eqn:Hrun; [|done].
  cbn [py_bind]. intros Hstep.
  destruct (walk_ok _ _ Hrun) as (Hinv & _ & _).
  destruct (Inv_process_archive st a st' Hinv Hstep) as (Hinv' & _).
  exists st.
  destruct (prev st) as [[pk pdt]|] eqn:Hp.
  - destruct (process_archive_next_Ok st a pk pdt st' Hp (inv_added_when st Hinv) Hstep)
      as (adds & _ & _ & Hall & _ & _ & Hev & Hadds & Hkeys & _).
    set (inter := intersection (load_keys a) pk) in *.
    exists adds, (departure_event (archive_dt a) (added_when st) <$> departing st inter).
    do 4 (split; [done|]).
    rewrite departure_events_keys, Hkeys, Hall.
    split; [|split; [|split; [|split; [|split; [|split]]]]].
    + eapply Forall_impl; [done|]. by intros e [? _].
    + apply Forall_fmap, Forall_true. intros k. apply departure_event_is_departure.
    + apply NoDup_filter, intersection_NoDup.
    + apply departing_NoDup.
    + intros k. rewrite list_elem_of_filter, elem_of_list_to_set. tauto.
    + intros k. rewrite departing_elem_of, elem_of_list_to_set. tauto.
    + apply (StronglySorted_fmap_inv event_key
               (λ k1 k2, inter_sort_key k1 ≤ inter_sort_key k2)).
      rewrite Hkeys.
      apply StronglySorted_filter, intersection_sorted.
  - rewrite process_archive_first in Hstep by done. injection Hstep as <-.
    exists [], []. simpl. rewrite app_nil_r.
    do 4 (split; [done|]). do 2 (split; [constructor|]). do 2 (split; [constructor|]).
    split; [|split; [|constructor]]; intros k; rewrite elem_of_nil; tauto.
Qed.

Lemma extract_gives_snoc archives a last_archive (P : State → Prop) :
  (∀ st, extract (archives ++ [a]) last_archive = Ok st → P st) →
  gives (archives ++ [a]) (extract (archives ++ [a]) last_archive) P.
Proof.
  destruct (archives ++ [a]) as [|b l] eqn:Heq; [by destruct archives|].
  apply extract_gives.
Qed.
End walk_facts.

(** X1: after the loop over at least two archives [all_keys] holds exactly
    the keys common to the last two archives; the final pass adds the keys
    the last archive shares with the 14d archive.  (The two raise nothing
    but the [ValueError] of a key whose start is not a [datetime].) *)
Theorem all_keys_is_last_intersection {O : SetOrder}
    (archives : list Archive) (a b last_archive : Archive) :
  gives (archives ++ [a; b]) (walk (archives ++ [a; b]))
    (λ st, ∀ k, k ∈ all_keys st ↔ k ∈ load_keys a ∧ k ∈ load_keys b) ∧
  gives (archives ++ [a; b]) (extract (archives ++ [a; b]) last_archive)
    (λ st, ∀ k, k ∈ all_keys st ↔
                k ∈ load_keys b ∧ (k ∈ load_keys a ∨ k ∈ load_keys last_archive)).
Proof.
  assert (∀ st, walk (archives ++ [a; b]) = Ok st →
            prev st = Some (load_keys b, archive_dt b) ∧
            all_keys st = list_to_set (intersection (load_keys b) (load_keys a)))
    as Hwalk.
  { intros st.
    change (archives ++ [a; b]) with (archives ++ [a] ++ [b]).
    rewrite (assoc_L (++) archives [a] [b]), walk_snoc.
    destruct (walk (archives ++ [a])) as [st0|] eqn:Hrun0; [|done].
    cbn [py_bind]. intros Hstep.
    destruct (walk_ok _ _ Hrun0) as (Hinv0 & _ & Hprev0).
    rewrite last_snoc in Hprev0. simpl in Hprev0.
    destruct (process_archive_next_Ok st0 b _ _ st Hprev0 (inv_added_when st0 Hinv0) Hstep)
      as (adds & Hprev & _ & Hall & _).
    done. }
  split.
  - apply walk_gives. intros st [_ Hall]%Hwalk k.
    rewrite Hall, elem_of_list_to_set, intersection_elem_of. tauto.
  - change (archives ++ [a; b]) with (archives ++ [a] ++ [b]).
    rewrite (assoc_L (++) archives [a] [b]). apply extract_gives_snoc.
    rewrite <-(assoc_L (++) archives [a] [b]). simpl.
    intros st. unfold extract.
    destruct (walk (archives ++ [a; b])) as [st0|] eqn:Hrun; [|done].
    cbn [py_bind]. destruct (Hwalk st0 eq_refl) as [Hprev Hall].
    unfold last_pass. rewrite Hprev. intros [= <-] k.
    destruct (add_loop_spec (archive_dt b)
                (intersection (load_keys last_archive) (load_keys b)) st0)
      as (-> & _); [apply intersection_NoDup|].
    rewrite elem_of_union, Hall, !elem_of_list_to_set, !intersection_elem_of. tauto.
Qed.

(** X2: a transition appends one ADD event for each key that enters
    [all_keys] and one departure event for each key that leaves it, and
    nothing else; when [all_keys] does not change it appends no event. *)
Theorem transition_events_follow_all_keys {O : SetOrder}
    (archives : list Archive) (a : Archive) :
  gives (archives ++ [a]) (walk (archives ++ [a])) (λ st',
    ∃ st adds deps,
      walk archives = Ok st ∧
      events st' = events st ++ adds ++ deps ∧
      Forall (λ e, is_added e = true) adds ∧
      Forall (λ e, is_departure e = true) deps ∧
      NoDup (event_key <$> adds) ∧ NoDup (event_key <$> deps) ∧
      (∀ k, k ∈ event_key <$> adds ↔ k ∈ all_keys st' ∧ k ∉ all_keys st) ∧
      (∀ k, k ∈ event_key <$> deps ↔ k ∈ all_keys st ∧ k ∉ all_keys st') ∧
      (all_keys st' = all_keys st → events st' = events st)).
Proof.
  apply walk_gives. intros st' Hrun'.
  destruct (walk_step archives a st' Hrun')
    as (st & adds & deps & Hrun & _ & _ & Hev & Hadds & Hdeps &
        Hnd1 & Hnd2 & Hk1 & Hk2 & _).
  exists st, adds, deps. do 8 (split; [done|]).
  intros Heq. rewrite Hev.
  assert (adds = []) as ->.
  { destruct adds as [|e adds]; [done|].
    assert (event_key e ∈ event_key <$> e :: adds) as Hin by (rewrite fmap_cons; left).
    apply Hk1 in Hin as [Hin Hn]. by rewrite Heq in Hin. }
  assert (deps = []) as ->.
  { destruct deps as [|e deps]; [done|].
    assert (event_key e ∈ event_key <$> e :: deps) as Hin by (rewrite fmap_cons; left).
    apply Hk2 in Hin as [Hin Hn]. by rewrite Heq in Hn. }
  by rewrite !app_nil_r.
Qed.

(** X3: the ADD events of a transition stand in the order of [inter], that
    is by increasing [1000 * key.level + key.interval]. *)
Theorem adds_in_order_of_inter {O : SetOrder} (archives : list Archive) (a : Archive) :
  gives (archives ++ [a]) (walk (archives ++ [a])) (λ st',
    ∃ st adds deps,
      walk archives = Ok st ∧
      events st' = events st ++ adds ++ deps ∧
      Forall (λ e, is_added e = true) adds ∧
      Forall (λ e, is_departure e = true) deps ∧
      StronglySorted
        (λ e1 e2, 1000 * level (event_key e1) + interval (event_key e1) ≤
                  1000 * level (event_key e2) + interval (event_key e2)) adds).
Proof.
  apply walk_gives. intros st' Hrun'.
  destruct (walk_step archives a st' Hrun')
    as (st & adds & deps & Hrun & _ & _ & Hev & Hadds & Hdeps &
        _ & _ & _ & _ & Hsorted).
  by exists st, adds, deps.
Qed.

(** X4: every event of a run is dated with the time of an archive, and a
    REVOKE or AUTO REMOVE event with the time of an archive that is not the
    first. *)
Theorem events_dated_with_archives {O : SetOrder}
    (a : Archive) (archives : list Archive) (last_archive : Archive) :
  gives (a :: archives) (extract (a :: archives) last_archive) (λ st,
    dts st = archive_dt <$> a :: archives ∧
    (∀ e, e ∈ events st → event_dt e ∈ archive_dt <$> a :: archives) ∧
    (∀ e, e ∈ events st → is_departure e = true → event_dt e ∈ archive_dt <$> archives)).
Proof.
  apply extract_gives. intros st (Hinv & Htr & Hdts)%extract_trace.
  split; [done|]. split.
  - intros e He. rewrite <-Hdts. by apply (inv_event_dt st Hinv).
  - intros e He Hd. pose proof (trace_departure_dt st Htr e He Hd) as Hin.
    by rewrite Hdts in Hin.
Qed.

(** X5: a REVOKE or AUTO REMOVE event stands behind an ADD event of the
    same key whose time is the [added_dt] of the departure. *)
Theorem departure_follows_its_add {O : SetOrder}
    (a : Archive) (archives : list Archive) (last_archive : Archive) :
  gives (a :: archives) (extract (a :: archives) last_archive) (λ st,
    ∀ l1 e l2 added_dt,
      events st = l1 ++ e :: l2 → event_added_dt e = Some added_dt →
      ∃ changed, AddedEvent (event_key e) added_dt changed ∈ l1).
Proof.
  apply extract_gives. intros st (Hinv & Htr & Hdts)%extract_trace.
  apply (trace_departure st Htr).
Qed.

(** X6: when the archive times increase, the [added_dt] of every REVOKE and
    AUTO REMOVE event is earlier than the event: the delay the report prints
    is positive. *)
Theorem departure_later_than_add {O : SetOrder}
    (a : Archive) (archives : list Archive) (last_archive : Archive) :
  StronglySorted Z.lt (archive_dt <$> a :: archives) →
  gives (a :: archives) (extract (a :: archives) last_archive) (λ st,
    ∀ evs e added_dt,
      sort_events (events st) = Ok evs →
      e ∈ evs → event_added_dt e = Some added_dt →
      added_dt < event_dt e).
Proof.
  intros Hsorted. apply extract_gives.
  intros st (Hinv & Htr & Hdts)%extract_trace evs e added_dt Hsort He.
  apply (trace_delay st Htr); [by rewrite Hdts|].
  by apply (sort_events_elem_of (events st) evs).
Qed.

Lemma departure_later_than_add_witness :
  StronglySorted Z.lt [1590000000; 1590086400; 1590172800] ∧
  gives three_keys
    (extract (O := elements_order) three_keys (mkArchive 1590172800 [K1; K3]))
    (λ st, ∀ evs e added_dt,
       sort_events (events st) = Ok evs →
       e ∈ evs → event_added_dt e = Some added_dt →
       added_dt < event_dt e).
Proof.
  assert (StronglySorted Z.lt [1590000000; 1590086400; 1590172800]) as Hs.
  { apply (bool_decide_unpack _). by vm_compute. }
  split; [exact Hs|].
  exact (departure_later_than_add (O := elements_order)
           (mkArchive 1590000000 [K1; K2; K3])
           [mkArchive 1590086400 [K1; K2; K3]; mkArchive 1590172800 [K1; K3]]
           (mkArchive 1590172800 [K1; K3]) Hs).
Defined.

(** * Further properties of the report *)

Lemma count_events_days revoked evs c i :
  bucket (days_count (foldl (count_event revoked) c evs)) i =
    bucket (days_count c) i + Z.of_nat (length (counted_in revoked i evs)).
Proof.
  unfold counted_in. revert c. induction evs as [|e evs IH]; intros c; simpl; [lia|].
  rewrite IH, filter_cons. destruct (decide (counted revoked e)) as [He|He].
  - rewrite count_event_counted by done. simpl. rewrite bucket_incr.
    repeat case_decide; simpl; try tauto; try lia. subst. tauto.
  - rewrite count_event_uncounted by done.
    rewrite decide_False by tauto. done.
Qed.

Lemma count_events_none revoked evs c :
  (∀ e, e ∈ evs → ¬ counted revoked e) → foldl (count_event revoked) c evs = c.
Proof.
  revert c. induction evs as [|e evs IH]; intros c Hnone; [done|]. simpl.
  rewrite count_event_uncounted by (apply Hnone; left).
  apply IH. intros e' He'. apply Hnone. by right.
Qed.

Lemma counted_in_pos revoked evs e :
  e ∈ evs → counted revoked e →
  1 ≤ Z.of_nat (length (counted_in revoked (interval (event_key e)) evs)).
Proof.
  intros He Hc. unfold counted_in.
  assert (e ∈ filter (λ e', counted revoked e' ∧
            interval (event_key e') = interval (event_key e)) evs) as Hin
    by (by apply list_elem_of_filter).
  destruct (filter _ evs); [by apply elem_of_nil in Hin|]. simpl. lia.
Qed.

Lemma bucket_empty i : bucket ∅ i = 0.
Proof. unfold bucket. by rewrite lookup_empty. Qed.

Lemma bucket_pos_lookup d i : 1 ≤ bucket d i → d !! i = Some (bucket d i).
Proof. unfold bucket. destruct (d !! i); simpl; [done|lia]. Qed.

Lemma max_values_raise d e : max_values d = Raise e → e = ValueError ∧ d = ∅.
Proof.
  unfold max_values. destruct (map_to_list d) as [|[i x] l] eqn:Hl; simpl; [|done].
  intros [= <-]. split; [done|]. by apply map_to_list_empty_iff.
Qed.

(** One turn of the loop over [dts]. *)
Lemma report_dt_line revoked evs r dt :
  ∃ entry,
    line_of revoked evs dt entry ∧
    report_dt revoked evs r dt =
      Ok {| diagnosed_at := diagnosed_at r ++ [entry];
            totals := tot_days_count
                        (foldl (count_event revoked)
                           {| days_count := ∅; tot_days_count := totals r |}
                           (filter (λ e, event_dt e = dt) evs)) |}.
Proof.
  unfold report_dt. cbv zeta.
  set (gevents := filter (λ e, event_dt e = dt) evs).
  set (c := foldl (count_event revoked) {| days_count := ∅; tot_days_count := totals r |}
              gevents).
  assert (∀ i, bucket (days_count c) i = day_count revoked evs dt i) as Hday.
  { intros i. unfold c. rewrite count_events_days. simpl. by rewrite bucket_empty. }
  case_decide as Hd; cbn [py_bind].
  - exists (dt, None). split; [|done]. split; [done|]. simpl.
    intros e He Hdt Hc.
    assert (1 ≤ day_count revoked evs dt (interval (event_key e))) as Hpos.
    { apply counted_in_pos; [|done]. by apply list_elem_of_filter. }
    rewrite <-Hday, Hd, bucket_empty in Hpos. lia.
  - destruct (max_values_ok _ Hd) as [n Hn]. rewrite Hn. cbn [py_bind].
    exists (dt, Some n). split; [|done]. split; [done|]. simpl.
    destruct (max_values_spec _ _ Hn) as ((i0 & Hi0) & Hmax).
    assert (day_count revoked evs dt i0 = n) as Hn0.
    { rewrite <-Hday. unfold bucket. by rewrite Hi0. }
    assert (∀ i, day_count revoked evs dt i ≤ n) as Hle.
    { intros i. rewrite <-Hday. unfold bucket.
      destruct (days_count c !! i) as [v|] eqn:Hi; simpl; [by eapply Hmax|].
      rewrite <-Hn0. unfold day_count. lia. }
    split; [|split; [by exists i0|done]].
    destruct (decide (Forall (λ e, ¬ counted revoked e) gevents)) as [Hnone|Hsome].
    + destruct Hd. unfold c. rewrite count_events_none; [done|].
      by apply Forall_forall.
    + apply not_Forall_Exists in Hsome; [|apply _].
      apply Exists_exists in Hsome as (e & He & Hc). simpl in Hc.
      apply dec_stable in Hc.
      etrans; [|apply (Hle (interval (event_key e)))].
      by apply counted_in_pos.
Qed.

Lemma grouped_cons d ds evs :
  grouped (d :: ds) evs = filter (λ e, event_dt e = d) evs ++ grouped ds evs.
Proof. done. Qed.

Lemma grouped_elem_of e ds evs :
  e ∈ grouped ds evs ↔ e ∈ evs ∧ event_dt e ∈ ds.
Proof.
  induction ds as [|d ds IH].
  - unfold grouped. simpl. rewrite !elem_of_nil. tauto.
  - rewrite grouped_cons, elem_of_app, IH, list_elem_of_filter, elem_of_cons. tauto.
Qed.

Lemma grouped_day_count revoked evs ds dt i :
  dt ∈ ds →
  day_count revoked evs dt i ≤ Z.of_nat (length (counted_in revoked i (grouped ds evs))).
Proof.
  unfold day_count, counted_in. induction ds as [|d ds IH]; intros Hin.
  - by apply elem_of_nil in Hin.
  - rewrite grouped_cons, filter_app, length_app.
    apply elem_of_cons in Hin as [->|Hin]; [lia|]. specialize (IH Hin). lia.
Qed.

(** The loop over [dts]: its lines and its totals. *)
Lemma for_each_report_lines revoked evs r0 ds :
  ∃ r entries,
    for_each (report_dt revoked evs) r0 ds = Ok r ∧
    diagnosed_at r = diagnosed_at r0 ++ entries ∧
    Forall2 (line_of revoked evs) ds entries ∧
    ∀ i, bucket (totals r) i =
         bucket (totals r0) i + Z.of_nat (length (counted_in revoked i (grouped ds evs))).
Proof.
  revert r0. induction ds as [|dt ds IH]; intros r0.
  - exists r0, []. split; [done|]. split; [by rewrite app_nil_r|]. split; [constructor|].
    intros i. unfold grouped. simpl. lia.
  - destruct (report_dt_line revoked evs r0 dt) as (entry & Hline & Hrun).
    cbn [for_each]. rewrite Hrun. cbn [py_bind].
    match goal with |- ∃ _ _, for_each _ ?r1 _ = _ ∧ _ =>
      destruct (IH r1) as (r & entries & Hrun' & Hlines & Hall & Htot)
    end.
    exists r, (entry :: entries). split; [done|]. split; [|split].
    + rewrite Hlines. simpl. by rewrite <-app_assoc.
    + by constructor.
    + intros i. rewrite Htot. cbn [totals]. rewrite count_events_tot. cbn [tot_days_count].
      rewrite grouped_cons. unfold counted_in. rewrite filter_app, length_app. lia.
Qed.

(** X7: once the events are sorted, the loop over [dts] does not raise; the
    report has one block for each archive time, in the order of [dts]; its
    "At least ... people diagnosed." line is left out exactly when no
    counted ADD event has that time, and otherwise shows the largest number
    of counted ADD events of that time with a common start interval. *)
Theorem diagnosed_line_per_archive_time (st : State) :
  match sort_events (events st) with
  | Ok evs =>
      ∃ r,
        for_each (report_dt (revoked_keys st) evs)
          {| diagnosed_at := []; totals := ∅ |} (dts st) = Ok r ∧
        Forall2 (line_of (revoked_keys st) evs) (dts st) (diagnosed_at r) ∧
        ∀ rep, report st = Ok rep → lines rep = r
  | Raise e => report st = Raise e
  end.
Proof.
  unfold report. destruct (sort_events (events st)) as [evs|e]; [|done].
  destruct (for_each_report_lines (revoked_keys st) evs
              {| diagnosed_at := []; totals := ∅ |} (dts st))
    as (r & entries & Hrun & Hlines & Hall & _).
  exists r. split; [done|]. simpl in Hlines. subst entries. split; [done|].
  intros rep. cbn [py_bind]. rewrite Hrun. cbn [py_bind].
  destruct (max_values (totals r)); simpl; [|done]. by intros [= <-].
Qed.

Lemma count_events_tot_pos revoked l c :
  (∀ i v, tot_days_count c !! i = Some v → 1 ≤ v) →
  ∀ i v, tot_days_count (foldl (count_event revoked) c l) !! i = Some v → 1 ≤ v.
Proof.
  revert c. induction l as [|e l IH]; intros c Hc; simpl; [done|].
  destruct (decide (counted revoked e)) as [He|He].
  - rewrite count_event_counted by done. apply IH. simpl.
    intros i v. unfold incr.
    destruct (decide (i = interval (event_key e))) as [->|Hne].
    + rewrite lookup_insert_eq. intros [= <-].
      destruct (tot_days_count c !! interval (event_key e)) as [w|] eqn:Hw; simpl; [|lia].
      specialize (Hc _ _ Hw). lia.
    + rewrite lookup_insert_ne by done. apply Hc.
  - rewrite count_event_uncounted by done. by apply IH.
Qed.

Lemma for_each_report_totals_pos revoked evs ds r0 r :
  (∀ i v, totals r0 !! i = Some v → 1 ≤ v) →
  for_each (report_dt revoked evs) r0 ds = Ok r →
  ∀ i v, totals r !! i = Some v → 1 ≤ v.
Proof.
  revert r0. induction ds as [|d ds IH]; intros r0 Hr0; simpl.
  - by intros [= <-].
  - destruct (report_dt_line revoked evs r0 d) as (entry & _ & ->).
    cbn [py_bind]. apply IH. cbn [totals]. by apply count_events_tot_pos.
Qed.

(** X8: when the run ends normally, the number of its last line is at
    least 1 and at least the number of every per-archive line. *)
Theorem last_line_bounds_lines {O : SetOrder}
    (archives : list Archive) (last_archive : Archive) (rep : Report) :
  dump archives last_archive = Ok rep →
  1 ≤ diagnosed rep ∧
  ∀ dt n, (dt, Some n) ∈ diagnosed_at (lines rep) → n ≤ diagnosed rep.
Proof.
  unfold dump. destruct (extract archives last_archive) as [st|]; [|done].
  cbn [py_bind]. unfold report.
  destruct (sort_events (events st)) as [evs|]; [|done]. cbn [py_bind].
  destruct (for_each_report_lines (revoked_keys st) evs
              {| diagnosed_at := []; totals := ∅ |} (dts st))
    as (r & entries & Hrun & Hlines & Hall & Htot).
  rewrite Hrun. cbn [py_bind].
  destruct (max_values (totals r)) as [n|] eqn:Hn; [|done]. cbn [py_bind].
  intros [= <-]. cbn [diagnosed lines]. simpl in Hlines. subst entries.
  destruct (max_values_spec _ _ Hn) as ((i0 & Hi0) & Hmax).
  assert (1 ≤ n) as Hpos.
  { eapply (for_each_report_totals_pos _ _ _ _ r); [|done..].
    intros i v. simpl. by rewrite lookup_empty. }
  assert (∀ i, bucket (totals r) i ≤ n) as Hle.
  { intros i. unfold bucket. destruct (totals r !! i) as [v|] eqn:Hi; simpl; [|lia].
    by eapply Hmax. }
  split; [done|]. intros dt m Hin.
  apply list_elem_of_lookup in Hin as [j Hj].
  destruct (Forall2_lookup_r _ _ _ _ _ Hall Hj) as (dt' & Hdt' & [Heq Hline]).
  simpl in Heq, Hline. subst dt'. destruct Hline as (_ & (i & Hi) & _).
  rewrite <-Hi. etrans; [|apply (Hle i)]. rewrite Htot. cbn [totals].
  rewrite bucket_empty.
  apply list_elem_of_lookup_2 in Hdt'.
  pose proof (grouped_day_count (revoked_keys st) evs (dts st) dt i Hdt'). lia.
Qed.

Lemma last_line_bounds_lines_witness :
  ∃ rep,
    dump (O := elements_order) three_keys (mkArchive 1590172800 [K1; K3]) = Ok rep ∧
    1 ≤ diagnosed rep.
Proof.
  eexists. split; [vm_compute; reflexivity|].
  eapply (proj1 (last_line_bounds_lines (O := elements_order) three_keys
                   (mkArchive 1590172800 [K1; K3]) _ _)).
  Unshelve. vm_compute. reflexivity.
Defined.

(** X9: the statements behind line 105 raise in these cases only:
    [TypeError] when there is no archive, and [ValueError] when there are
    archives and either a key has a start that is not a [datetime] or no ADD
    event is counted (level 5, key not revoked); they never raise
    [KeyError]. *)
Theorem dump_raises_only {O : SetOrder}
    (archives : list Archive) (last_archive : Archive) (err : PyError) :
  dump archives last_archive = Raise err →
  archives = [] ∧ err = TypeError ∨
  archives ≠ [] ∧ err = ValueError ∧
  (¬ archives_ok archives ∨
   ∃ st, extract archives last_archive = Ok st ∧
         ∀ e, e ∈ events st → ¬ counted (revoked_keys st) e).
Proof.
  destruct archives as [|a archives].
  - unfold dump. rewrite extract_no_archive. simpl. intros [= <-]. by left.
  - intros Hrun. right. split; [done|]. unfold dump in Hrun.
    destruct (extract (a :: archives) last_archive) as [st|e] eqn:Hext; cycle 1.
    { cbn [py_bind] in Hrun. injection Hrun as <-.
      apply extract_Raise in Hext as [-> Hn]. split; [done|]. by left. }
    destruct (extract_ok a archives last_archive st Hext) as (Hinv & Hdts).
    cbn [py_bind] in Hrun. unfold report in Hrun.
    destruct (sort_events (events st)) as [evs|e] eqn:Hsort; cycle 1.
    { cbn [py_bind] in Hrun. injection Hrun as <-.
      apply sort_events_Raise in Hsort as [-> Hn]. split; [done|]. left.
      intros Hok. apply Hn, Forall_forall.
      by apply (extract_keys representable a archives last_archive). }
    cbn [py_bind] in Hrun.
    destruct (for_each_report_lines (revoked_keys st) evs
                {| diagnosed_at := []; totals := ∅ |} (dts st))
      as (r & entries & Hrep & _ & _ & Htot).
    rewrite Hrep in Hrun. cbn [py_bind] in Hrun.
    destruct (max_values (totals r)) as [n|err'] eqn:Hn; [done|].
    cbn [py_bind] in Hrun. injection Hrun as ->.
    apply max_values_raise in Hn as [-> Hempty].
    split; [done|]. right. exists st. split; [done|].
    intros e He Hc.
    assert (e ∈ grouped (dts st) evs) as Hin.
    { apply grouped_elem_of. split.
      - by apply (sort_events_elem_of (events st) evs).
      - by apply (inv_event_dt st Hinv). }
    pose proof (counted_in_pos (revoked_keys st) _ e Hin Hc) as Hpos.
    specialize (Htot (interval (event_key e))).
    rewrite Hempty in Htot. cbn [totals] in Htot. rewrite !bucket_empty in Htot. lia.
Qed.

Lemma dump_raises_only_witness :
  level2_only = [] ∧ ValueError = TypeError ∨
  level2_only ≠ [] ∧ ValueError = ValueError ∧
  (¬ archives_ok level2_only ∨
   ∃ st, extract (O := elements_order) level2_only (mkArchive 1590086400 [K3]) = Ok st ∧
         ∀ e, e ∈ events st → ¬ counted (revoked_keys st) e).
Proof.
  apply (dump_raises_only (O := elements_order)).
  vm_compute. reflexivity.
Defined.


(** * [TEK.format] *)

(** X10: on a REVOKE line the report prints an age of at most 8 days, on an
    AUTO REMOVE line an age of at least 8 days; a key that is one second
    over the 8 days is auto-removed and still printed with [age: 8d]. *)
Theorem departure_line_age {O : SetOrder}
    (a : Archive) (archives : list Archive) (last_archive : Archive) :
  gives (a :: archives) (extract (a :: archives) last_archive)
    (λ st, ∀ e, e ∈ events st → age_shown e) ∧
  (∀ k, representable k →
        format_age k (start_time k + timedelta_days 8) = Ok 8 ∧
        format_age k (start_time k + timedelta_days 8 + 1) = Ok 8).
Proof.
  split.
  - apply extract_gives. intros st (Hinv & Htr & Hdts)%extract_trace e He.
    pose proof (trace_age st Htr e He) as Hage.
    destruct e; simpl in *; try done; destruct Hage as [Hr Hage];
      unfold format_age; rewrite TEK_dt_representable by done; cbn [py_bind];
      (eexists; split; [done|]); unfold timedelta_get_days, timedelta_days in *.
    + apply Z.div_le_upper_bound; lia.
    + apply Z.div_le_lower_bound; lia.
  - intros k Hr. unfold format_age. rewrite TEK_dt_representable by done.
    cbn [py_bind]. unfold timedelta_get_days, timedelta_days.
    split; f_equal.
    + replace (start_time k + 8 * 86400 - start_time k) with (8 * 86400) by lia. done.
    + replace (start_time k + 8 * 86400 + 1 - start_time k) with (8 * 86400 + 1) by lia.
      done.
Qed.

(** X11: [format] prints the time of day of a key exactly when its start
    interval is not a multiple of 144, that is when the key does not start
    at midnight UTC (and raises the [ValueError] of [self.dt] when the start
    is not a [datetime]). *)
Theorem format_time_iff_not_midnight (k : TEK) :
  format_with_time k =
    if decide (representable k) then Ok (bool_decide (interval k mod 144 ≠ 0))
    else Raise ValueError.
Proof.
  unfold format_with_time. case_decide as Hr; cycle 1.
  { by rewrite TEK_dt_not_representable. }
  rewrite !TEK_dt_representable by done. cbn [py_bind].
  unfold datetime_hour, datetime_minute, start_time.
  generalize (interval k). intros i.
  case_bool_decide as Hh.
  - f_equal. symmetry. apply bool_decide_eq_true. intros Hi. apply Hh.
    revert Hi. Z.to_euclidean_division_equations. lia.
  - f_equal. apply bool_decide_ext. split.
    + intros Hm Hi. apply Hm. revert Hi. Z.to_euclidean_division_equations. lia.
    + intros Hi Hm. apply Hi. revert Hh Hm. Z.to_euclidean_division_equations. lia.
Qed.

(** * [download_data.py] *)

Example url_timestamp_found :
  url_timestamp "/exposures/at/1593000000/batch_full14-2650000-1.zip" = Returned 1593000000.
Proof. reflexivity. Qed.

Example url_timestamp_missed :
  url_timestamp "/exposures/at/1600000000/batch_full14-2660000-1.zip" = Raises AttributeError.
Proof. reflexivity. Qed.

(** ** Files *)

Lemma stat_IsFile fs p c : stat fs p = IsFile c → fs !! p = Some (File c) ∧ p ≠ [].
Proof.
  destruct p as [|x q]; simpl; [done|].
  destruct (stat fs q); try done.
  destruct (fs !! (x :: q)) as [[]|]; try done. by intros [= ->].
Qed.

Lemma stat_IsDir_cons fs x q :
  stat fs (x :: q) = IsDir → stat fs q = IsDir ∧ fs !! (x :: q) = Some Dir.
Proof.
  simpl. destruct (stat fs q); try done.
  by destruct (fs !! (x :: q)) as [[]|].
Qed.

Lemma stat_lookup fs x q :
  stat fs q = IsDir →
  stat fs (x :: q) =
    match fs !! (x :: q) with
    | Some (File c) => IsFile c
    | Some Dir => IsDir
    | None => Missing
    end.
Proof. intros Hq. simpl. by rewrite Hq. Qed.

Lemma is_file_read_bytes fs p :
  is_file fs p = true → ∃ c, stat fs p = IsFile c ∧ read_bytes fs p = Returned c.
Proof.
  unfold is_file, read_bytes. destruct (stat fs p) as [c| | |]; try done. by exists c.
Qed.

Lemma is_file_false fs p c : is_file fs p = false → stat fs p ≠ IsFile c.
Proof. unfold is_file. intros H Hs. by rewrite Hs in H. Qed.

(** More entries keep the files and directories that are there. *)
Lemma stat_weaken fs fs' p :
  fs ⊆ fs' →
  (stat fs p = IsDir → stat fs' p = IsDir) ∧
  (∀ c, stat fs p = IsFile c → stat fs' p = IsFile c).
Proof.
  intros Hsub. induction p as [|x q [IHd IHf]]; [done|].
  split.
  - intros [Hq Hl]%stat_IsDir_cons. rewrite stat_lookup by auto.
    by rewrite (lookup_weaken _ _ _ _ Hl Hsub).
  - intros c Hs. pose proof (stat_IsFile _ _ _ Hs) as [Hl _].
    assert (stat fs q = IsDir) as Hq.
    { simpl in Hs. by destruct (stat fs q). }
    rewrite stat_lookup by auto. by rewrite (lookup_weaken _ _ _ _ Hl Hsub).
Qed.

(** A new regular file keeps the other files and directories. *)
Lemma stat_insert_file fs x q content p :
  stat fs q = IsDir → fs !! (x :: q) ≠ Some Dir → p ≠ x :: q →
  (stat fs p = IsDir → stat (<[x :: q := File content]> fs) p = IsDir) ∧
  (∀ c, stat fs p = IsFile c → stat (<[x :: q := File content]> fs) p = IsFile c).
Proof.
  intros Hq Hn. induction p as [|y p IH]; intros Hne; [by split|].
  assert (stat fs p = IsDir → stat (<[x :: q := File content]> fs) p = IsDir) as Hd.
  { intros Hp. apply IH; [|done]. intros ->.
    by apply stat_IsDir_cons in Hp as [_ ?]. }
  split.
  - intros [Hp Hl]%stat_IsDir_cons. rewrite stat_lookup by auto.
    by rewrite lookup_insert_ne, Hl.
  - intros c Hs. pose proof (stat_IsFile _ _ _ Hs) as [Hl _].
    assert (stat fs p = IsDir) as Hp.
    { simpl in Hs. by destruct (stat fs p). }
    rewrite stat_lookup by auto. by rewrite lookup_insert_ne, Hl.
Qed.

Lemma os_mkdir_Returned fs p fs' :
  os_mkdir fs p = Returned fs' →
  fs !! p = None ∧ fs' = <[p := Dir]> fs ∧ stat fs (parent p) = IsDir ∧ p ≠ [].
Proof.
  destruct p as [|x q]; simpl; [done|].
  destruct (stat fs q); try done.
  destruct (fs !! (x :: q)); [done|]. by intros [= <-].
Qed.

Lemma os_mkdir_subseteq fs p fs' : os_mkdir fs p = Returned fs' → fs ⊆ fs'.
Proof. intros (Hn & -> & _)%os_mkdir_Returned. by apply insert_subseteq. Qed.

Lemma mkdir_parents_subseteq fs p : fs ⊆ (mkdir_parents fs p).1.
Proof.
  induction p as [|x q IH]; [done|].
  cbn [mkdir_parents].
  destruct (mkdir_parents fs q) as [fs1 r1] eqn:Hrec. simpl in IH.
  repeat case_match; simplify_eq; simpl; try done;
    try (by eapply os_mkdir_subseteq);
    (etrans; [exact IH|]; by eapply os_mkdir_subseteq).
Qed.

Lemma write_bytes_Returned fs p content fs' :
  write_bytes fs p content = Returned fs' →
  ∃ x q, p = x :: q ∧ stat fs q = IsDir ∧ fs !! p ≠ Some Dir ∧
         fs' = <[p := File content]> fs.
Proof.
  destruct p as [|x q]; simpl; [done|].
  destruct (stat fs q) eqn:Hq; try done.
  destruct (fs !! (x :: q)) as [[c|]|] eqn:Hl; [|done|];
    intros [= <-]; by exists x, q.
Qed.

(** ** Jobs *)

(** A job keeps the files that are there, whether it returns or raises. *)
Lemma func_keeps path check_path resp fs p c :
  stat fs p = IsFile c → stat (func path check_path resp fs).1 p = IsFile c.
Proof.
  intros Hp. unfold func. destruct resp as [content|e]; [|done].
  cbv zeta.
  destruct (match check_path with Some cp => _ | None => _ end) as [[|]|e];
    [done| |done].
  destruct (is_file fs path) eqn:Hfile.
  { by destruct (read_bytes fs path). }
  pose proof (mkdir_parents_subseteq fs (parent path)) as Hsub.
  destruct (mkdir_parents fs (parent path)) as [fs1 [[]|e]]; simpl in Hsub;
    [|by apply (stat_weaken fs fs1)].
  assert (stat fs1 p = IsFile c) as Hp1 by (by apply (stat_weaken fs fs1)).
  destruct (write_bytes fs1 path content) as [fs2|e] eqn:Hw; [|done].
  simpl. apply write_bytes_Returned in Hw as (x & q & -> & Hq & Hn & ->).
  apply stat_insert_file; [done..| |done].
  intros ->. unfold is_file in Hfile. by rewrite Hp in Hfile.
Qed.

(** X12: a worker never changes or removes a file that exists: whatever
    items it takes from the queue and whatever the responses are, also when
    a job raises, every file that was on disk is there afterwards with the
    same content. *)
Theorem worker_keeps_files (fs : Files) (items : list (option Job))
    (p : Path) (c : list byte) :
  stat fs p = IsFile c → stat (worker fs items).1 p = IsFile c.
Proof.
  revert fs. induction items as [|[item|] items IH]; intros fs Hp; simpl; try done.
  apply IH. unfold run_item.
  pose proof (func_keeps (job_path item) (job_check_path item) (job_response item)
                fs p c Hp) as Hkeep.
  by destruct (func _ _ _ fs) as [fs' [out|e]].
Qed.

Lemma worker_keeps_files_witness :
  stat (worker {[ ["a.zip"] := File [x01%byte] ]}
          [Some (mkJob ["a.zip"] None (Returned [x02%byte]));
           Some (mkJob ["b.zip"; "a.zip"] None (Returned [x03%byte]));
           Some (mkJob ["c.zip"; "d"] (Some ["a.zip"]) (Raises HTTPError));
           None]).1 ["a.zip"] = IsFile [x01%byte].
Proof.
  apply worker_keeps_files. vm_compute. reflexivity.
Defined.

Lemma stat_insert_dir fs x q :
  stat fs q = IsDir → fs !! (x :: q) = None →
  stat (<[x :: q := Dir]> fs) (x :: q) = IsDir.
Proof.
  intros Hq Hl. rewrite stat_lookup; [by rewrite lookup_insert_eq|].
  apply (stat_weaken fs); [by apply insert_subseteq|done].
Qed.

(** What [mkdir(parents=True, exist_ok=True)] does, by what is at the
    path. *)
Lemma mkdir_parents_spec fs p :
  reachable fs →
  match stat fs p with
  | IsFile _ => mkdir_parents fs p = (fs, Raises FileExistsError)
  | NotADir => mkdir_parents fs p = (fs, Raises NotADirectoryError)
  | IsDir => mkdir_parents fs p = (fs, Returned ())
  | Missing =>
      ∃ fs1,
        mkdir_parents fs p = (fs1, Returned ()) ∧
        stat fs1 p = IsDir ∧ fs ⊆ fs1 ∧
        ∀ x, fs1 !! x = fs !! x ∨
             (fs !! x = None ∧ fs1 !! x = Some Dir ∧ x `suffix_of` p)
  end.
Proof.
  intros Hwf. induction p as [|x q IH]; [done|].
  cbn [mkdir_parents stat os_mkdir]. unfold is_dir. cbn [stat].
  destruct (stat fs q) as [c| | |] eqn:Hq.
  - done.
  - destruct (fs !! (x :: q)) as [[c|]|] eqn:Hl; [done|done|].
    eexists. split; [done|].
    assert (fs ⊆ <[x :: q := Dir]> fs) as Hsub by (by apply insert_subseteq).
    split; [|split; [done|]].
    + by apply stat_insert_dir.
    + intros y. destruct (decide (y = x :: q)) as [->|Hne].
      * right. by rewrite lookup_insert_eq.
      * left. by rewrite lookup_insert_ne.
  - destruct IH as (fs1 & -> & Hq1 & Hsub & Hnew).
    assert (fs !! (x :: q) = None) as Hl.
    { destruct (fs !! (x :: q)) eqn:Hl; [|done].
      destruct (Hwf (x :: q)) as [_ Hd]; [by rewrite Hl|]. simpl in Hd. congruence. }
    assert (fs1 !! (x :: q) = None) as Hl1.
    { destruct (Hnew (x :: q)) as [->|(_ & _ & Hsuf)]; [done|].
      apply suffix_length in Hsuf. simpl in Hsuf. lia. }
    cbn [os_mkdir]. rewrite Hq1, Hl1.
    assert (fs1 ⊆ <[x :: q := Dir]> fs1) as Hsub1 by (by apply insert_subseteq).
    eexists. split; [done|]. split; [|split; [by etrans|]].
    + by apply stat_insert_dir.
    + intros y. destruct (decide (y = x :: q)) as [->|Hne].
      * right. by rewrite lookup_insert_eq.
      * rewrite lookup_insert_ne by done.
        destruct (Hnew y) as [?|(? & ? & Hsuf)]; [by left|right].
        do 2 (split; [done|]). by apply suffix_cons_r.
  - done.
Qed.

(** The files after a new file was written below the directories that
    [mkdir] made. *)
Lemma saved_files fs fs1 x q content :
  reachable fs →
  fs ⊆ fs1 →
  (∀ y, fs1 !! y = fs !! y ∨ (fs !! y = None ∧ fs1 !! y = Some Dir ∧ y `suffix_of` q)) →
  stat fs1 q = IsDir →
  fs1 !! (x :: q) = None →
  stat (<[x :: q := File content]> fs1) (x :: q) = IsFile content ∧
  ∀ p c, p ≠ x :: q →
    stat (<[x :: q := File content]> fs1) p = IsFile c ↔ stat fs p = IsFile c.
Proof.
  intros Hwf Hsub Hnew Hq Hl.
  assert (fs1 !! (x :: q) ≠ Some Dir) as Hn by (by rewrite Hl).
  split.
  - rewrite stat_lookup; [by rewrite lookup_insert_eq|].
    apply stat_insert_file; [done..| |done].
    intros Heq. apply (f_equal length) in Heq. simpl in Heq. lia.
  - intros p c Hne. split.
    + intros [Hp Hp0]%stat_IsFile. rewrite lookup_insert_ne in Hp by done.
      destruct (Hnew p) as [Heq|(_ & Hd & _)]; [|congruence].
      rewrite Heq in Hp. destruct (Hwf p) as [_ Hpar]; [by rewrite Hp|].
      destruct p as [|y p]; [done|]. simpl in Hpar.
      rewrite stat_lookup by done. by rewrite Hp.
    + intros Hp. apply stat_insert_file; [done..|].
      by apply (stat_weaken fs fs1).
Qed.

(** X13: a job whose download succeeded touches no file but [path]; it
    prints "Saved" exactly when it creates that file; afterwards the content
    is on disk, in [path] or in [check_path], or the warning was printed;
    the warning is printed only when [path] holds another content.  The job
    raises in three cases only, and then leaves the files as they are: the
    parent of [path] is a regular file ([FileExistsError]) or lies below
    one ([NotADirectoryError]), or [path] is a directory
    ([IsADirectoryError]). *)
Theorem func_saves_or_warns (path : Path) (check_path : option Path)
    (content : list byte) (fs : Files) :
  reachable fs →
  match func path check_path (Returned content) fs with
  | (fs', Returned out) =>
      (∀ p c, p ≠ path → stat fs' p = IsFile c ↔ stat fs p = IsFile c) ∧
      (Saved path ∈ out ↔ is_file fs path = false ∧ stat fs' path = IsFile content) ∧
      (stat fs' path = IsFile content ∨
       (∃ cp, check_path = Some cp ∧ stat fs' cp = IsFile content) ∨
       Warn path ∈ out) ∧
      (Warn path ∈ out →
       fs' = fs ∧ ∃ old, stat fs path = IsFile old ∧ old ≠ content)
  | (fs', Raises e) =>
      fs' = fs ∧ is_file fs path = false ∧
      (e = FileExistsError ∧ (∃ c, stat fs (parent path) = IsFile c) ∨
       e = NotADirectoryError ∧ stat fs (parent path) = NotADir ∨
       e = IsADirectoryError ∧ stat fs path = IsDir)
  end.
Proof.
  intros Hwf. unfold func. cbv zeta.
  destruct (match check_path with Some cp => _ | None => _ end) as [[|]|e] eqn:Hsame.
  - split; [done|]. split; [|split].
    + rewrite elem_of_nil. split; [done|]. intros [Hf Hs].
      unfold is_file in Hf. by rewrite Hs in Hf.
    + right. left. destruct check_path as [cp|]; [|done].
      destruct (is_file fs cp) eqn:Hcp; [|done].
      destruct (is_file_read_bytes _ _ Hcp) as (old & Hst & Hrd).
      rewrite Hrd in Hsame. injection Hsame as Heq%bool_decide_eq_true.
      subst. by exists cp.
    + by rewrite elem_of_nil.
  - destruct (is_file fs path) eqn:Hfile.
    + destruct (is_file_read_bytes _ _ Hfile) as (old & Hst & ->).
      split; [done|]. case_bool_decide as Hne; (split; [|split]).
      * rewrite list_elem_of_singleton. split; [done|]. by intros [? _].
      * right. right. left.
      * intros _. split; [done|]. exists old. split; [done|congruence].
      * rewrite elem_of_nil. split; [done|]. by intros [? _].
      * left. by rewrite Hne.
      * by rewrite elem_of_nil.
    + pose proof (mkdir_parents_spec fs (parent path) Hwf) as Hmk.
      assert (∀ fs1 x q,
                path = x :: q → fs ⊆ fs1 →
                (∀ y, fs1 !! y = fs !! y ∨
                      (fs !! y = None ∧ fs1 !! y = Some Dir ∧ y `suffix_of` q)) →
                stat fs1 q = IsDir → fs1 !! (x :: q) = None →
                let fs' := <[x :: q := File content]> fs1 in
                (∀ p c, p ≠ path → stat fs' p = IsFile c ↔ stat fs p = IsFile c) ∧
                (Saved path ∈ [Saved path] ↔
                   false = false ∧ stat fs' path = IsFile content) ∧
                (stat fs' path = IsFile content ∨
                 (∃ cp, check_path = Some cp ∧ stat fs' cp = IsFile content) ∨
                 Warn path ∈ [Saved path]) ∧
                (Warn path ∈ [Saved path] →
                 fs' = fs ∧ ∃ old, stat fs path = IsFile old ∧ old ≠ content))
        as Hsaved.
      { intros fs1 x q -> Hsub Hnew Hq Hl fs'.
        destruct (saved_files fs fs1 x q content Hwf Hsub Hnew Hq Hl) as [Hthere Hrest].
        split; [done|]. split; [|split].
        - split; [done|]. intros _. left.
        - by left.
        - by intros [=]%list_elem_of_singleton. }
      destruct (stat fs (parent path)) as [c| | |] eqn:Hpar.
      * rewrite Hmk. split; [done|]. split; [done|]. left. eauto.
      * rewrite Hmk. destruct path as [|x q].
        { simpl. split; [done|]. split; [done|]. right. right. done. }
        simpl in Hpar. cbn [write_bytes]. rewrite Hpar.
        destruct (fs !! (x :: q)) as [[c|]|] eqn:Hl.
        -- exfalso. unfold is_file in Hfile. rewrite stat_lookup in Hfile by done.
           by rewrite Hl in Hfile.
        -- split; [done|]. split; [done|]. right. right. split; [done|].
           rewrite stat_lookup by done. by rewrite Hl.
        -- apply (Hsaved fs x q); [done|done| |done|done]. intros y. by left.
      * destruct Hmk as (fs1 & -> & Hd1 & Hsub & Hnew).
        destruct path as [|x q]; [done|]. simpl in Hpar, Hd1, Hnew.
        cbn [write_bytes parent tail]. rewrite Hd1.
        assert (fs1 !! (x :: q) = None) as Hl1.
        { destruct (Hnew (x :: q)) as [->|(_ & _ & Hsuf)].
          - destruct (fs !! (x :: q)) eqn:Hl; [|done].
            destruct (Hwf (x :: q)) as [_ Hd]; [by rewrite Hl|]. simpl in Hd. congruence.
          - apply suffix_length in Hsuf. simpl in Hsuf. lia. }
        rewrite Hl1. by apply (Hsaved fs1 x q).
      * rewrite Hmk. split; [done|]. split; [done|]. right. left. done.
  - exfalso. destruct check_path as [cp|]; [|done].
    destruct (is_file fs cp) eqn:Hcp; [|done].
    destruct (is_file_read_bytes _ _ Hcp) as (old & _ & Hrd). by rewrite Hrd in Hsame.
Qed.

Lemma func_saves_or_warns_witness :
  reachable files_a ∧
  match func ["b.zip"; "d"] (Some ["a.zip"]) (Returned [x02%byte]) files_a with
  | (fs', Returned out) =>
      (∀ p c, p ≠ ["b.zip"; "d"] → stat fs' p = IsFile c ↔ stat files_a p = IsFile c) ∧
      (Saved ["b.zip"; "d"] ∈ out ↔
         is_file files_a ["b.zip"; "d"] = false ∧
         stat fs' ["b.zip"; "d"] = IsFile [x02%byte]) ∧
      (stat fs' ["b.zip"; "d"] = IsFile [x02%byte] ∨
       (∃ cp, Some ["a.zip"] = Some cp ∧ stat fs' cp = IsFile [x02%byte]) ∨
       Warn ["b.zip"; "d"] ∈ out) ∧
      (Warn ["b.zip"; "d"] ∈ out →
       fs' = files_a ∧
       ∃ old, stat files_a ["b.zip"; "d"] = IsFile old ∧ old ≠ [x02%byte])
  | (fs', Raises e) =>
      fs' = files_a ∧ is_file files_a ["b.zip"; "d"] = false ∧
      (e = FileExistsError ∧ (∃ c, stat files_a (parent ["b.zip"; "d"]) = IsFile c) ∨
       e = NotADirectoryError ∧ stat files_a (parent ["b.zip"; "d"]) = NotADir ∨
       e = IsADirectoryError ∧ stat files_a ["b.zip"; "d"] = IsDir)
  end.
Proof.
  assert (reachable files_a) as Hwf.
  { intros p [n Hp]. unfold files_a in Hp.
    apply lookup_singleton_Some in Hp as [<- _]. split; [done|reflexivity]. }
  split; [exact Hwf|].
  exact (func_saves_or_warns ["b.zip"; "d"] (Some ["a.zip"]) [x02%byte] files_a Hwf).
Defined.

(** X14: a job is idempotent: run again with the same response on the
    files it left, it leaves them as they are and saves nothing. *)
Theorem func_twice (path : Path) (check_path : option Path)
    (resp : Outcome (list byte)) (fs fs' : Files) (out : list Message) :
  func path check_path resp fs = (fs', Returned out) →
  ∃ out', func path check_path resp fs' = (fs', Returned out') ∧ Saved path ∉ out'.
Proof.
  destruct resp as [content|e]; [|done]. unfold func at 1. cbv zeta.
  destruct (match check_path with Some cp => _ | None => _ end)
    as [[|]|e] eqn:Hsame; [| |done].
  - intros [= <- <-]. unfold func. cbv zeta. rewrite Hsame.
    eexists. split; [done|]. apply not_elem_of_nil.
  - destruct (is_file fs path) eqn:Hfile.
    + destruct (is_file_read_bytes _ _ Hfile) as (old & Hst & Hrd). rewrite Hrd.
      intros [= <- <-]. unfold func. cbv zeta. rewrite Hsame, Hfile, Hrd.
      eexists. split; [done|].
      case_bool_decide; [|apply not_elem_of_nil].
      by intros [=]%list_elem_of_singleton.
    + destruct (mkdir_parents fs (parent path)) as [fs1 [[]|e]]; [|done].
      destruct (write_bytes fs1 path content) as [fs2|e] eqn:Hw; [|done].
      intros [= <- <-].
      apply write_bytes_Returned in Hw as (x & q & -> & Hq & Hn & ->).
      assert (stat (<[x :: q := File content]> fs1) (x :: q) = IsFile content) as Hnew.
      { rewrite stat_lookup; [by rewrite lookup_insert_eq|].
        apply stat_insert_file; [done..| |done].
        intros Heq. apply (f_equal length) in Heq. simpl in Heq. lia. }
      unfold func. cbv zeta. clear Hsame.
      destruct (match check_path with Some cp => _ | None => _ end)
        as [[|]|e] eqn:Hsame'.
      * eexists. split; [done|]. apply not_elem_of_nil.
      * unfold is_file, read_bytes. rewrite Hnew.
        eexists. split; [done|].
        rewrite bool_decide_eq_false_2 by (by intros []). apply not_elem_of_nil.
      * exfalso. destruct check_path as [cp|]; [|done].
        destruct (is_file _ cp) eqn:Hcp; [|done].
        destruct (is_file_read_bytes _ _ Hcp) as (old & _ & Hrd).
        by rewrite Hrd in Hsame'.
Qed.

Lemma func_twice_witness :
  ∃ out',
    func ["b.zip"; "d"] (Some ["a.zip"]) (Returned [x02%byte])
      (<[ ["b.zip"; "d"] := File [x02%byte] ]> (<[ ["d"] := Dir ]> files_a))
    = (<[ ["b.zip"; "d"] := File [x02%byte] ]> (<[ ["d"] := Dir ]> files_a),
       Returned out') ∧
    Saved ["b.zip"; "d"] ∉ out'.
Proof.
  apply (func_twice ["b.zip"; "d"] (Some ["a.zip"]) (Returned [x02%byte])
           files_a _ [Saved ["b.zip"; "d"]]).
  vm_compute. reflexivity.
Defined.

(** ** Timestamps of url paths *)

Lemma is_digit_value c :
  is_digit c = true → 0 ≤ Z.of_N (Ascii.N_of_ascii c) - 48 ≤ 9.
Proof.
  unfold is_digit. intros [H1%N.leb_le H2%N.leb_le]%andb_true_iff. lia.
Qed.

Lemma take_digits_spec n s ds rest :
  take_digits n s = Some (ds, rest) →
  s = ds +:+ rest ∧ String.length ds = n ∧
  ∀ acc, acc * 10 ^ Z.of_nat n ≤ int_of_digits acc ds < (acc + 1) * 10 ^ Z.of_nat n.
Proof.
  revert s ds. induction n as [|n IH]; intros s ds; simpl take_digits.
  - intros [= <- <-]. split; [done|]. split; [done|]. intros acc. simpl. lia.
  - destruct s as [|c s]; [done|]. destruct (is_digit c) eqn:Hc; [|done].
    destruct (take_digits n s) as [[ds' rest']|] eqn:Hn; [|done].
    intros [= <- <-]. destruct (IH _ _ Hn) as (-> & Hlen & Hval).
    split; [done|]. split; [simpl; by rewrite Hlen|].
    intros acc. simpl int_of_digits.
    pose proof (is_digit_value c Hc) as Hd.
    specialize (Hval (acc * 10 + (Z.of_N (Ascii.N_of_ascii c) - 48))).
    rewrite Nat2Z.inj_succ, Z.pow_succ_r by lia.
    assert (0 < 10 ^ Z.of_nat n) by (apply Z.pow_pos_nonneg; lia).
    nia.
Qed.

Lemma match_timestamp_spec s g :
  match_timestamp s = Some g →
  (∃ post, s = "/" +:+ g +:+ "/" +:+ post) ∧
  String.length g = 10%nat ∧
  1500000000 ≤ int_of_digits 0 g ≤ 1599999999.
Proof.
  unfold match_timestamp.
  destruct s as [|c1 [|c2 [|c3 s]]]; try done.
  destruct (bool_decide (c1 = "/"%char)) eqn:H1; [|done].
  destruct (bool_decide (c2 = "1"%char)) eqn:H2; [|done].
  destruct (bool_decide (c3 = "5"%char)) eqn:H3; [|done]. cbn [andb].
  apply bool_decide_eq_true in H1 as ->. apply bool_decide_eq_true in H2 as ->.
  apply bool_decide_eq_true in H3 as ->.
  destruct (take_digits 8 s) as [[ds [|c4 post]]|] eqn:Hd; try done.
  destruct (bool_decide (c4 = "/"%char)) eqn:H4; [|done].
  apply bool_decide_eq_true in H4 as ->. intros [= <-].
  destruct (take_digits_spec _ _ _ _ Hd) as (-> & Hlen & Hval).
  split; [|split].
  - by exists post.
  - simpl. by rewrite Hlen.
  - specialize (Hval 15).
    change (10 ^ Z.of_nat 8) with 100000000 in Hval.
    change (int_of_digits 0 (String "1" (String "5" ds))) with (int_of_digits 15 ds).
    lia.
Qed.

Lemma search_timestamp_spec s g :
  search_timestamp s = Some g →
  (∃ pre post, s = pre +:+ "/" +:+ g +:+ "/" +:+ post) ∧
  String.length g = 10%nat ∧
  1500000000 ≤ int_of_digits 0 g ≤ 1599999999.
Proof.
  induction s as [|c s IH].
  - simpl. done.
  - cbn [search_timestamp].
    destruct (match_timestamp (String c s)) as [g'|] eqn:Hm.
    + intros [= <-]. destruct (match_timestamp_spec _ _ Hm) as ((post & ->) & ? & ?).
      split; [|done]. by exists "", post.
    + intros Hs. destruct (IH Hs) as ((pre & post & ->) & ? & ?).
      split; [|done]. by exists (String c pre), post.
Qed.

(** X15: the timestamp [at_save] reads from a url path is the number of a
    path component of ten digits between two slashes, and it lies between
    1500000000 and 1599999999: a later timestamp is never returned. *)
Theorem url_timestamp_range (url_path : string) (t : Z) :
  url_timestamp url_path = Returned t →
  1500000000 ≤ t ≤ 1599999999 ∧
  ∃ pre g post,
    url_path = pre +:+ "/" +:+ g +:+ "/" +:+ post ∧
    String.length g = 10%nat ∧ int_of_digits 0 g = t.
Proof.
  unfold url_timestamp.
  destruct (search_timestamp url_path) as [g|] eqn:Hs; [|done].
  intros [= <-]. destruct (search_timestamp_spec _ _ Hs) as ((pre & post & ->) & ? & ?).
  split; [done|]. by exists pre, g, post.
Qed.

Lemma url_timestamp_range_witness :
  1500000000 ≤ 1593000000 ≤ 1599999999 ∧
  ∃ pre g post,
    "/exposures/at/1593000000/batch_full14-2650000-1.zip"
      = pre +:+ "/" +:+ g +:+ "/" +:+ post ∧
    String.length g = 10%nat ∧ int_of_digits 0 g = 1593000000.
Proof.
  apply (url_timestamp_range "/exposures/at/1593000000/batch_full14-2650000-1.zip").
  reflexivity.
Defined.

Lemma decimal_digit d :
  0 ≤ d ≤ 9 →
  is_digit (Ascii.ascii_of_N (Z.to_N (48 + d))) = true ∧
  Z.of_N (Ascii.N_of_ascii (Ascii.ascii_of_N (Z.to_N (48 + d)))) - 48 = d.
Proof.
  intros Hd.
  assert (d = 0 ∨ d = 1 ∨ d = 2 ∨ d = 3 ∨ d = 4 ∨ d = 5 ∨ d = 6 ∨ d = 7 ∨ d = 8 ∨ d = 9)
    as Hcases by lia.
  repeat destruct Hcases as [->|Hcases]; try subst d; done.
Qed.

Lemma append_String c s r : String c s +:+ r = String c (s +:+ r).
Proof. done. Qed.

Lemma take_digits_decimal n t rest :
  take_digits n (decimal n t +:+ rest) = Some (decimal n t, rest).
Proof.
  revert t. induction n as [|n IH]; intros t; [done|].
  cbn [decimal take_digits]. rewrite append_String.
  destruct (decimal_digit ((t / 10 ^ Z.of_nat n) mod 10)) as [-> _].
  { pose proof (Z.mod_pos_bound (t / 10 ^ Z.of_nat n) 10). lia. }
  by rewrite IH.
Qed.

Lemma int_of_decimal n t acc :
  0 ≤ t < 10 ^ Z.of_nat n →
  int_of_digits acc (decimal n t) = acc * 10 ^ Z.of_nat n + t.
Proof.
  revert t acc. induction n as [|n IH]; intros t acc Ht.
  - simpl in *. lia.
  - cbn [decimal int_of_digits].
    rewrite Nat2Z.inj_succ, Z.pow_succ_r in * by lia.
    assert (0 < 10 ^ Z.of_nat n) as Hpow by (apply Z.pow_pos_nonneg; lia).
    assert (0 ≤ t / 10 ^ Z.of_nat n < 10) as Hq.
    { split; [apply Z.div_pos; lia|]. apply Z.div_lt_upper_bound; lia. }
    rewrite (Z.mod_small (t / 10 ^ Z.of_nat n) 10) by done.
    destruct (decimal_digit (t / 10 ^ Z.of_nat n)) as [_ ->]; [lia|].
    rewrite IH by (apply Z.mod_pos_bound; lia).
    pose proof (Z.div_mod t (10 ^ Z.of_nat n) ltac:(lia)). lia.
Qed.

Lemma search_timestamp_skip pre rest' :
  slash_one_free pre = true →
  search_timestamp (pre +:+ String "/" rest') = search_timestamp (String "/" rest').
Proof.
  induction pre as [|c pre IH]; [done|]. intros Hpre.
  rewrite append_String. cbn [search_timestamp].
  assert (match_timestamp (String c (pre +:+ String "/" rest')) = None) as ->.
  { unfold match_timestamp.
    destruct pre as [|c2 pre].
    - change ("" +:+ String "/" rest') with (String "/" rest').
      destruct rest' as [|c3 rest']; [done|].
      rewrite (bool_decide_eq_false_2 ("/"%char = "1"%char)) by done.
      by rewrite andb_false_r.
    - rewrite append_String.
      destruct (pre +:+ String "/" rest') as [|c3 s]; [done|].
      cbn [slash_one_free] in Hpre. apply andb_true_iff in Hpre as [Hc _].
      apply negb_true_iff in Hc. by rewrite Hc. }
  apply IH. destruct pre as [|c2 pre]; [done|].
  cbn [slash_one_free] in Hpre. by apply andb_true_iff in Hpre as [_ ?].
Qed.

(** X16: a url path with a component of ten digits that is the decimal
    notation of a number [t] between 1500000000 and 1599999999, after a
    prefix in which no slash is followed by the digit 1, gives the
    timestamp [t]. *)
Theorem url_timestamp_of_component (pre post : string) (t : Z) :
  1500000000 ≤ t ≤ 1599999999 →
  slash_one_free pre = true →
  url_timestamp (pre +:+ "/" +:+ decimal 10 t +:+ "/" +:+ post) = Returned t.
Proof.
  intros Ht Hpre. unfold url_timestamp.
  change ("/" +:+ decimal 10 t +:+ "/" +:+ post)
    with (String "/" (decimal 10 t +:+ "/" +:+ post)).
  rewrite search_timestamp_skip by done.
  assert (decimal 10 t = String "1" (String "5" (decimal 8 (t mod 100000000)))) as Hdec.
  { change (decimal 10 t) with
      (String (Ascii.ascii_of_N (Z.to_N (48 + (t / 10 ^ 9) mod 10)))
         (String (Ascii.ascii_of_N
                    (Z.to_N (48 + (t mod 10 ^ 9 / 10 ^ 8) mod 10)))
            (decimal 8 ((t mod 10 ^ 9) mod 10 ^ 8)))).
    change (10 ^ 9) with 1000000000. change (10 ^ 8) with 100000000.
    assert (t / 1000000000 = 1) as -> by (Z.to_euclidean_division_equations; lia).
    assert (t mod 1000000000 / 100000000 = 5) as ->
      by (Z.to_euclidean_division_equations; lia).
    assert ((t mod 1000000000) mod 100000000 = t mod 100000000) as ->
      by (Z.to_euclidean_division_equations; lia).
    done. }
  assert (search_timestamp (String "/" (decimal 10 t +:+ "/" +:+ post))
          = Some (decimal 10 t)) as ->.
  { rewrite Hdec. change ("/" +:+ post) with (String "/" post).
    rewrite !append_String. cbn [search_timestamp match_timestamp].
    rewrite !bool_decide_eq_true_2 by done. cbn [andb].
    rewrite take_digits_decimal. by rewrite bool_decide_eq_true_2. }
  f_equal. rewrite int_of_decimal; [lia|]. lia.
Qed.

Lemma url_timestamp_of_component_witness :
  url_timestamp ("/exposures/at" +:+ "/" +:+ decimal 10 1593000000 +:+ "/" +:+ "batch.zip")
  = Returned 1593000000.
Proof.
  apply (url_timestamp_of_component "/exposures/at" "batch.zip" 1593000000).
  - lia.
  - reflexivity.
Defined.
